(** * Shape inference and buffer primitives of yoloPostprocessUtils.ts

    A shallow embedding of [src/utils/utils-yolo/yoloPostprocessUtils.ts]
    (BroadcastUtil, GemmUtil, ShapeUtil, MathUtil, SplitUtil, PoolConvUtil and
    [arrayCopyHelper]) together with the properties its specification states
    about them.

    Conventions of the embedding.
    - A JavaScript [number] that holds a shape dimension, an index, a rank or
      a count is an integer of [Z]; the pooling and convolution helpers divide
      without rounding, so there a [number] is a rational of [Q].  The source
      computes on binary64 numbers: its sums, products and floored quotients
      of integers are the integers computed here as long as none exceeds
      2^53, and a quotient is the rational computed here where it is a
      binary64 number.  The properties of functions that multiply dimensions
      or add offsets are therefore stated for shapes of at most 2^53
      elements; comparisons, copies and maxima need no such bound.
    - A JavaScript array of numbers is a [list]; it is indexed by [Z] through
      [get] and [set], which spell out what JavaScript does out of range.
    - A function that can [throw] returns an [outcome]; a function that
      mutates an argument threads the mutated array explicitly and returns it
      next to its outcome. *)

From Stdlib Require Import ZArith QArith Qround Lia String.
From stdpp Require Import base list gmap strings.

Local Open Scope Z_scope.

(** ** Outcomes of a call *)

(** [Ret a]: the call returns [a].  [Throw msg]: the call executes
    [throw new Error(msg)].  [Irregular]: the call goes on with a value that
    is no integer (resp. rational) or with an array that is not dense
    ([undefined], [NaN], an infinity, an array with a hole or with a
    non-index property); such runs are not followed further. *)
Inductive outcome (A : Type) : Type :=
| Ret (a : A)
| Throw (msg : string)
| Irregular.

Arguments Ret {A} a.
Arguments Throw {A} msg.
Arguments Irregular {A}.

#[global] Instance outcome_ret : MRet outcome := λ A a, Ret a.
#[global] Instance outcome_bind : MBind outcome := λ A B k m,
  match m with
  | Ret a => k a
  | Throw msg => Throw msg
  | Irregular => Irregular
  end.

Definition throws {A} (o : outcome A) : Prop := ∃ msg, o = Throw msg.

(** ** JavaScript arrays *)

(** [a.length] *)
Definition len {A} (a : list A) : Z := Z.of_nat (length a).

(** [a[i]]: [None] is [undefined] (index out of range). *)
Definition get {A} (a : list A) (i : Z) : option A :=
  if i <? 0 then None else a !! Z.to_nat i.

(** [a[i]] where the source has established [0 <= i < a.length] before the
    read; the default is never returned there. *)
Definition get_in (a : list Z) (i : Z) : Z := default 0 (get a i).

(** [a[i] = v]: an index in range overwrites, [i = a.length] appends; any
    other index would leave a hole (or set a non-index property), which is
    [None]. *)
Definition set {A} (a : list A) (i : Z) (v : A) : option (list A) :=
  if (0 <=? i) && (i <? len a) then Some (<[Z.to_nat i := v]> a)
  else if i =? len a then Some (a ++ [v])
  else None.

(** [a[i] = v] where the source writes inside [new Array(n)], [0 <= i < n]. *)
Definition set_in (a : list Z) (i : Z) (v : Z) : list Z :=
  if i <? 0 then a else <[Z.to_nat i := v]> a.

(** [new Array<number>(n)]: [n] empty slots.  Every function below writes a
    slot before the array is read or returned, so that the filler is never
    observed. *)
Definition new_Array (n : Z) : list Z := replicate (Z.to_nat n) 0.

(** ** checkInputsShape *)

(** An entry of [inputs: any[]], as far as the function looks at it: [null]
    or [undefined], on which reading [.dims] raises a [TypeError]; or any
    other value, seen through its [dims] property, [None] when it has none
    (or a falsy one). *)
Inductive input : Type :=
| Nullish
| Value (dims : option (list Z)).

(** The loop of [checkInputsShape], with [n] iterations left.  A [TypeError]
    of the engine is a [Throw] with that name for a message. *)
Fixpoint checkInputsShape_loop (inputs : list input)
    (expectedDimensions : list Z) (n : nat) (i : Z) : outcome bool :=
  match n with
  | O => Ret true
  | S n' =>
    match get inputs i with
    | Some Nullish => Throw "TypeError"
    | Some (Value None) => Ret false
    | Some (Value (Some dims)) =>
      match get expectedDimensions i with
      | Some expected =>
        if negb (len dims =? expected) then Ret false
        else checkInputsShape_loop inputs expectedDimensions n' (i + 1)
      | None => Ret false
      end
    | None => Irregular
    end
  end.

(** [inputs] itself may be missing ([!inputs]): [None]. *)
Definition checkInputsShape (inputs : option (list input))
    (expectedDimensions : list Z) : outcome bool :=
  match inputs with
  | None => Ret false
  | Some inputs =>
    if negb (len inputs =? len expectedDimensions) then Ret false
    else checkInputsShape_loop inputs expectedDimensions
           (Z.to_nat (len inputs)) 0
  end.

(** ** TypeUtil *)

Module TypeUtil.
Section Types.
Context {type : Type} `{EqDecision type}.

Fixpoint validateSameTypes_loop (typesArray : list type) (baseType : type)
    (n : nat) (i : Z) : outcome () :=
  match n with
  | O => Ret ()
  | S n' =>
    match get typesArray i with
    | Some t =>
      if negb (bool_decide (t = baseType)) then Throw "input types are "
      else validateSameTypes_loop typesArray baseType n' (i + 1)
    | None => Irregular
    end
  end.

Definition validateSameTypes (typesArray : list type) : outcome () :=
  if len typesArray <? 2
  then Throw "must contain atleast 2 types to compare equality"
  else
    match get typesArray 0 with
    | Some baseType =>
      validateSameTypes_loop typesArray baseType (Z.to_nat (len typesArray)) 0
    | None => Irregular
    end.

End Types.
End TypeUtil.

(** ** BroadcastUtil *)
Module BroadcastUtil.

Definition calcMatMulShape (a b : Z * Z) : option (Z * Z) :=
  if negb (a.2 =? b.1) then None else Some (a.1, b.2).

(** The loop [for (let i = ...; i <= crank; i++)] of [calcShape], with [n]
    iterations left. *)
Fixpoint calcShape_loop (adims bdims : list Z) (crank : Z)
    (n : nat) (i : Z) (cdims : list Z) : option (list Z) :=
  match n with
  | O => Some cdims
  | S n' =>
    let arank := len adims in
    let brank := len bdims in
    let aLen := if arank - i <? 0 then 1 else get_in adims (arank - i) in
    let bLen := if brank - i <? 0 then 1 else get_in bdims (brank - i) in
    if negb (aLen =? bLen) && (aLen >? 1) && (bLen >? 1) then None
    else calcShape_loop adims bdims crank n' (i + 1)
           (set_in cdims (crank - i) (Z.max aLen bLen))
  end.

(** [None] is the result [undefined]. *)
Definition calcShape (adims bdims : list Z) (isMatMul : bool) : option (list Z) :=
  let arank := len adims in
  let brank := len bdims in
  let crank := Z.max (len adims) (len bdims) in
  let cdims := new_Array crank in
  if isMatMul then
    if (arank <? 2) || (brank <? 2) then None
    else
      match calcMatMulShape
              (get_in adims (arank - 2), get_in adims (arank - 1))
              (get_in bdims (brank - 2), get_in bdims (brank - 1)) with
      | None => None
      | Some (c2, c1) =>
        let cdims := set_in (set_in cdims (crank - 2) c2) (crank - 1) c1 in
        calcShape_loop adims bdims crank (Z.to_nat (crank - 3 + 1)) 3 cdims
      end
  else calcShape_loop adims bdims crank (Z.to_nat (crank - 1 + 1)) 1 cdims.

(** The loop [for (let i = 1; i <= inputRank; i++)] of [isValidBroadcast]. *)
Fixpoint isValidBroadcast_loop (shape finalShape : list Z)
    (n : nat) (i : Z) : bool :=
  match n with
  | O => true
  | S n' =>
    let inputRank := len shape in
    let finalRank := len finalShape in
    if negb (get_in shape (inputRank - i) =? 1)
       && negb (get_in shape (inputRank - i) =? get_in finalShape (finalRank - i))
    then false
    else isValidBroadcast_loop shape finalShape n' (i + 1)
  end.

Definition isValidBroadcast (shape finalShape : list Z) : bool :=
  let inputRank := len shape in
  let finalRank := len finalShape in
  if inputRank >? finalRank then false
  else isValidBroadcast_loop shape finalShape (Z.to_nat (inputRank - 1 + 1)) 1.

(** [a.slice(start)]: a negative [start] counts from the end. *)
Definition slice_from {A} (a : list A) (start : Z) : list A :=
  let start := if start <? 0 then Z.max (len a + start) 0 else Z.min start (len a) in
  drop (Z.to_nat start) a.

(** The loop of [index]: [indicesOrigin[i] = indices[dimOffset + i] %
    shapeOrigin[i]].  [%] keeps the sign of the dividend ([Z.rem]); a read
    outside an array or a zero divisor stores [NaN]. *)
Fixpoint index_loop (indices shapeOrigin : list Z) (dimOffset : Z)
    (n : nat) (i : Z) (indicesOrigin : list Z) : outcome (list Z) :=
  match n with
  | O => Ret indicesOrigin
  | S n' =>
    match get indices (dimOffset + i), get shapeOrigin i with
    | Some x, Some s =>
      if s =? 0 then Irregular
      else index_loop indices shapeOrigin dimOffset n' (i + 1)
             (set_in indicesOrigin i (Z.rem x s))
    | _, _ => Irregular
    end
  end.

Definition index (indices shapeOrigin : list Z) (isMatMul : bool)
    : outcome (list Z) :=
  let dimOffset := len indices - len shapeOrigin in
  let indicesOrigin := slice_from indices dimOffset in
  let dimLen := if isMatMul then len indicesOrigin - 2 else len indicesOrigin in
  index_loop indices shapeOrigin dimOffset (Z.to_nat dimLen) 0 indicesOrigin.

End BroadcastUtil.

(** ** GemmUtil *)
Module GemmUtil.

Definition getShapeOfGemmResult (leftShape : list Z) (transLeft : bool)
    (rightShape : list Z) (transRight : bool) (biasShape : list Z)
    : outcome (list Z) :=
  if negb (len leftShape =? 2) || negb (len rightShape =? 2)
  then Throw "shape need to be of size 2"
  else
    let '(M, K) :=
      if transLeft then (get_in leftShape 1, get_in leftShape 0)
      else (get_in leftShape 0, get_in leftShape 1) in
    let '(N, kDim) :=
      if transRight then (get_in rightShape 0, 1)
      else (get_in rightShape 1, 0) in
    if negb (get_in rightShape kDim =? K) then Throw "dimension mismatch"
    else if (M <=? 0) || (N <=? 0) || (K <=? 0)
    then Throw "invalid shape specified"
    else if negb (BroadcastUtil.isValidBroadcast biasShape [M; N])
    then Throw "gemm: invalid bias shape for broadcast"
    else Ret [M; N].

End GemmUtil.

(** ** ShapeUtil *)

(** Sizes, strides and offsets are integers of [Z]: they are the numbers of
    the source as long as they stay within 2^53, the range in which binary64
    holds every integer. *)
Module ShapeUtil.

(** The loop of [getSizeFromDimensionRange].  [size] is [None] once it has
    become [NaN] (a factor read outside the array); the safety check still
    runs on the later dimensions. *)
Fixpoint getSizeFromDimensionRange_loop (dims : list Z)
    (n : nat) (i : Z) (size : option Z) : outcome Z :=
  match n with
  | O => match size with Some s => Ret s | None => Irregular end
  | S n' =>
    match get dims i with
    | Some d =>
      if d <=? 0
      then Throw "cannot get valid size from specified dimension range. Most likely the range contains 0 or negative values in them."
      else getSizeFromDimensionRange_loop dims n' (i + 1)
             (s ← size; Some (s * d))
    | None => getSizeFromDimensionRange_loop dims n' (i + 1) None
    end
  end.

Definition getSizeFromDimensionRange (dims : list Z) (start end_ : Z)
    : outcome Z :=
  getSizeFromDimensionRange_loop dims (Z.to_nat (end_ - start)) start (Some 1).

Definition size (dims : list Z) : outcome Z :=
  getSizeFromDimensionRange dims 0 (len dims).

(** The descending loop [for (let i = rank - 3; i >= 0; --i)]. *)
Fixpoint computeStrides_loop (shape : list Z) (n : nat) (i : Z)
    (strides : list Z) : list Z :=
  match n with
  | O => strides
  | S n' =>
    computeStrides_loop shape n' (i - 1)
      (set_in strides i (get_in strides (i + 1) * get_in shape (i + 1)))
  end.

Definition computeStrides (shape : list Z) : list Z :=
  let rank := len shape in
  if rank <? 2 then [1]
  else
    let strides := new_Array rank in
    let strides := set_in strides (rank - 1) 1 in
    let strides := set_in strides (rank - 2) (get_in shape (rank - 1)) in
    computeStrides_loop shape (Z.to_nat (rank - 3 + 1)) (rank - 3) strides.

(** [index += strides[i] * indices[i]] for [i < indices.length - 1]; a
    stride read outside [strides] makes the sum [NaN]. *)
Fixpoint indicesToOffset_loop (indices strides : list Z)
    (n : nat) (i : Z) (index : Z) : outcome Z :=
  match n with
  | O => Ret index
  | S n' =>
    match get strides i with
    | Some s =>
      indicesToOffset_loop indices strides n' (i + 1)
        (index + s * get_in indices i)
    | None => Irregular
    end
  end.

Definition indicesToOffset (indices strides : list Z) : outcome Z :=
  let rank := len strides in
  if rank =? 0 then Ret 0
  else
    match get indices (len indices - 1) with
    | Some index =>
      indicesToOffset_loop indices strides
        (Z.to_nat (len indices - 1)) 0 index
    | None => Irregular
    end.

(** [indices[i] = Math.floor(offset / strides[i]); offset -= indices[i] *
    strides[i]]; a zero stride gives an infinity or [NaN]. *)
Fixpoint offsetToIndices_loop (strides : list Z)
    (n : nat) (i : Z) (offset : Z) (indices : list Z) : outcome (Z * list Z) :=
  match n with
  | O => Ret (offset, indices)
  | S n' =>
    let s := get_in strides i in
    if s =? 0 then Irregular
    else
      let indices := set_in indices i (offset / s) in
      offsetToIndices_loop strides n' (i + 1)
        (offset - get_in indices i * s) indices
  end.

Definition offsetToIndices (offset : Z) (strides : list Z) : outcome (list Z) :=
  let rank := len strides in
  if rank =? 0 then Ret []
  else if rank =? 1 then Ret [offset]
  else
    let indices := new_Array (len strides) in
    '(offset, indices) ←
      offsetToIndices_loop strides (Z.to_nat (len indices - 1)) 0 offset indices;
    Ret (set_in indices (len indices - 1) offset).

Definition getActualAxisFromNegativeValue (axis tensorRank : Z) : outcome Z :=
  if (axis <? - tensorRank) && (axis >? tensorRank - 1)
  then Throw "unsupported axis for this operation."
  else Ret (if axis <? 0 then axis + tensorRank else axis).

(** The state of the loop of [calculateReshapedDims]. *)
Record reshape_state : Type := ReshapeState {
  reshapedDims : list Z;
  unknownDimension : Z;
  size_known : Z          (* the local variable [size] *)
}.

Fixpoint calculateReshapedDims_loop (originalDims shapeHints : list Z)
    (n : nat) (i : Z) (st : reshape_state) : outcome reshape_state :=
  match n with
  | O => Ret st
  | S n' =>
    let hint := get_in shapeHints i in
    if hint <? -1 then Throw "a dimension cannot be less than -1"
    else if hint =? -1 then
      if negb (unknownDimension st =? -1)
      then Throw "at most one dimension can be -1"
      else calculateReshapedDims_loop originalDims shapeHints n' (i + 1)
             (ReshapeState (reshapedDims st) i (size_known st))
    else
      dims ←
        (if hint =? 0 then
           if i >=? len originalDims
           then Throw "the dimension with value zero exceeds the dimension size of the input tensor"
           else Ret (set_in (reshapedDims st) i (get_in originalDims i))
         else Ret (set_in (reshapedDims st) i hint));
      calculateReshapedDims_loop originalDims shapeHints n' (i + 1)
        (ReshapeState dims (unknownDimension st)
           (size_known st * get_in dims i))
  end.

(** [x % 0] is [NaN], and [NaN !== 0] holds: the test on the remainder
    throws for a zero divisor. [%] keeps the sign of the dividend
    ([Z.rem]); the quotient is taken only when the remainder is zero. *)
Definition calculateReshapedDims (originalDims shapeHints : list Z)
    : outcome (list Z) :=
  let nDims := len shapeHints in
  st ← calculateReshapedDims_loop originalDims shapeHints (Z.to_nat nDims) 0
         (ReshapeState (new_Array nDims) (-1) 1);
  if negb (unknownDimension st =? -1) then
    originalTensorFlattenedSize ← size originalDims;
    if (size_known st =? 0)
       || negb (Z.rem originalTensorFlattenedSize (size_known st) =? 0)
    then Throw "the input tensor cannot be reshaped to the requested shape."
    else Ret (set_in (reshapedDims st) (unknownDimension st)
                (Z.quot originalTensorFlattenedSize (size_known st)))
  else Ret (reshapedDims st).

(** The inner loop of [validateEqualDims], over the dimensions of one shape
    of the rank of [baseDims]. *)
Fixpoint validateEqualDims_inner (baseDims dims : list Z)
    (n : nat) (j : Z) : outcome () :=
  match n with
  | O => Ret ()
  | S n' =>
    if negb (get_in baseDims j =? get_in dims j)
    then Throw "input shapes are not the same"
    else validateEqualDims_inner baseDims dims n' (j + 1)
  end.

Fixpoint validateEqualDims_loop (dimsArray : list (list Z)) (baseDims : list Z)
    (n : nat) (i : Z) : outcome () :=
  match n with
  | O => Ret ()
  | S n' =>
    let dims := default [] (get dimsArray i) in
    if negb (len dims =? len baseDims)
    then Throw "rank is not the same for given inpu shapes"
    else
      validateEqualDims_inner baseDims dims (Z.to_nat (len baseDims)) 0;;
      validateEqualDims_loop dimsArray baseDims n' (i + 1)
  end.

Definition validateEqualDims (dimsArray : list (list Z)) : outcome () :=
  if len dimsArray <? 2
  then Throw "must contain atleast 2 shapes to compare equality"
  else
    let baseDims := default [] (get dimsArray 0) in
    validateEqualDims_loop dimsArray baseDims (Z.to_nat (len dimsArray - 1)) 1.

(** The loop [for (const n of dims)] of [validateDims].  [Number.isInteger]
    holds of every dimension of [Z]; the messages are given without the
    interpolated dimension. *)
Fixpoint validateDims_each (dims : list Z) : outcome () :=
  match dims with
  | [] => Ret ()
  | n :: rest =>
    if (n <=? 0) || (n >? 2147483647)
    then Throw "Invalid shape: length is not allowed"
    else validateDims_each rest
  end.

Definition validateDims (dims : list Z) : outcome () :=
  if (len dims <? 0) || (len dims >? 6)
  then Throw "Only rank 0 to 6 is supported for tensor shape."
  else if len dims =? 0
  then Throw "Scaler tensor is not implemented yet"
  else validateDims_each dims.

(** The messages of the two functions are given without the interpolated
    axis and rank. *)
Definition sizeFromDimension (dims : list Z) (axis : Z) : outcome Z :=
  if axis >? len dims
  then Throw "invalid dimension for sizeFromDimension"
  else getSizeFromDimensionRange dims axis (len dims).

Definition sizeToDimension (dims : list Z) (axis : Z) : outcome Z :=
  if axis >? len dims
  then Throw "invalid dimension for sizeToDimension"
  else getSizeFromDimensionRange dims 0 axis.

(** [offset += index[i] * stride[i]] for [i < axis]; a read outside one of
    the arrays makes the sum [NaN]. *)
Fixpoint computeOffset_loop (index stride : list Z)
    (n : nat) (i : Z) (offset : Z) : outcome Z :=
  match n with
  | O => Ret offset
  | S n' =>
    match get index i, get stride i with
    | Some x, Some s => computeOffset_loop index stride n' (i + 1) (offset + x * s)
    | _, _ => Irregular
    end
  end.

(** [axis] is [None] when the optional argument is omitted. *)
Definition computeOffset (index stride : list Z) (axis : option Z) : outcome Z :=
  let axis := match axis with Some axis => axis | None => len index end in
  computeOffset_loop index stride (Z.to_nat axis) 0 0.

(** The loop [for (let k = axisToIncrementOn - 1; k >= 0; --k)] of
    [incrementIndex]; the result is the caller's [index] array after the
    call.  [index[k]++] on a missing entry stores [NaN]; a comparison with a
    missing dimension is false, so that the entry is reset and the carry
    goes on. *)
Fixpoint incrementIndex_loop (dims : list Z) (n : nat) (k : Z)
    (index : list Z) : outcome (list Z) :=
  match n with
  | O => Ret index
  | S n' =>
    match get index k with
    | None => Irregular
    | Some x =>
      let index := set_in index k (x + 1) in
      let carry : bool :=
        match get dims k with
        | Some d => negb (get_in index k <? d)
        | None => true
        end in
      if carry
      then incrementIndex_loop dims n' (k - 1) (set_in index k 0)
      else Ret index
    end
  end.

Definition incrementIndex (index dims : list Z) (axisToIncrementOn : option Z)
    : outcome (list Z) :=
  let axisToIncrementOn :=
    match axisToIncrementOn with Some axis => axis | None => len dims end in
  incrementIndex_loop dims (Z.to_nat axisToIncrementOn) (axisToIncrementOn - 1)
    index.

(** [perm.map((v) => a[v])], or [a.slice().reverse()] without [perm]; an
    entry of [perm] outside [a] puts [undefined] in the result. *)
Definition sortBasedOnPerm (a : list Z) (perm : option (list Z))
    : outcome (list Z) :=
  match perm with
  | Some perm =>
    match mapM (get a) perm with
    | Some sorted => Ret sorted
    | None => Irregular
    end
  | None => Ret (reverse a)
  end.

(** [dims.map((v, i) => v + pad[i] + pad[i + rank])], from index [i] on. *)
Fixpoint padShape_map (pad : list Z) (rank : Z) (i : Z) (dims : list Z)
    : option (list Z) :=
  match dims with
  | [] => Some []
  | v :: rest =>
    head ← get pad i;
    tail ← get pad (i + rank);
    padded ← padShape_map pad rank (i + 1) rest;
    Some ((v + head + tail) :: padded)
  end.

Definition padShape (dims pad : list Z) : outcome (list Z) :=
  let rank := len dims in
  match padShape_map pad rank 0 dims with
  | Some padded => Ret padded
  | None => Irregular
  end.

(** [shape1.every((v, i) => v === shape2[i])], from index [i] on. *)
Fixpoint areEqual_every (shape2 : list Z) (i : Z) (shape1 : list Z) : bool :=
  match shape1 with
  | [] => true
  | v :: rest =>
    match get shape2 i with
    | Some w => (v =? w) && areEqual_every shape2 (i + 1) rest
    | None => false
    end
  end.

Definition areEqual (shape1 shape2 : list Z) : bool :=
  if negb (len shape1 =? len shape2) then false
  else areEqual_every shape2 0 shape1.

Fixpoint splitDimsIntoTwo_loop (dims : list Z) (pick : Z)
    (n : nat) (i : Z) (picked remnants : list Z) : list Z * list Z :=
  match n with
  | O => (picked, remnants)
  | S n' =>
    if i =? pick
    then splitDimsIntoTwo_loop dims pick n' (i + 1)
           (picked ++ [get_in dims i]) remnants
    else splitDimsIntoTwo_loop dims pick n' (i + 1)
           picked (remnants ++ [get_in dims i])
  end.

Definition splitDimsIntoTwo (dims : list Z) (pick : Z) : list Z * list Z :=
  splitDimsIntoTwo_loop dims pick (Z.to_nat (len dims)) 0 [] [].

End ShapeUtil.

(** ** Numeric buffers: arrayCopyHelper and MathUtil *)

(** The element arithmetic of a [NumberDataType] buffer (a typed array or a
    [number[]]) is floating point or wrapping integer arithmetic, fixed by
    the buffer; the primitives only rely on these operations. *)
Class Elt (elt : Type) : Type := {
  elt_add : elt → elt → elt;
  elt_mul : elt → elt → elt;
  elt_pow : elt → elt → elt;      (* [Math.pow] *)
  elt_two : elt                   (* the literal [2] *)
}.

(** Buffers are objects passed by reference: [target] and [source] name
    buffers of a store, and may name the same one. *)
Definition loc : Type := nat.

Section Buffers.
Context {elt : Type} `{Elt elt}.

Abbreviation heap := (gmap loc (list elt)).

(** [b[i]] *)
Definition buffer_read (h : heap) (b : loc) (i : Z) : option elt :=
  a ← h !! b; get a i.

(** [b[i] = v] inside the buffer; the loops below never write outside. *)
Definition buffer_write (h : heap) (b : loc) (i : Z) (v : elt) : option heap :=
  a ← h !! b;
  if (0 <=? i) && (i <? len a) then Some (<[b := <[Z.to_nat i := v]> a]> h)
  else None.

(** [for (let offset = 0; offset < blockSize; offset++) body], with [n]
    iterations left. *)
Fixpoint for_offset (body : Z → heap → option heap)
    (n : nat) (offset : Z) (h : heap) : outcome () * heap :=
  match n with
  | O => (Ret (), h)
  | S n' =>
    match body offset h with
    | Some h' => for_offset body n' (offset + 1) h'
    | None => (Irregular, h)
    end
  end.

Definition arrayCopyHelper (target source : loc)
    (targetIndex sourceIndex blockSize : Z) (h : heap) : outcome () * heap :=
  match h !! source, h !! target with
  | Some src, Some tgt =>
    if (sourceIndex <? 0) || (sourceIndex >=? len src)
    then (Throw "sourceIndex out of bounds", h)
    else if (targetIndex <? 0) || (targetIndex >=? len tgt)
    then (Throw "targetIndex out of bounds", h)
    else if sourceIndex + blockSize >? len src
    then (Throw "source indices to be copied are outside bounds", h)
    else if targetIndex + blockSize >? len tgt
    then (Throw "target array is too small to hold result", h)
    else
      for_offset (λ offset h,
          x ← buffer_read h source (sourceIndex + offset);
          buffer_write h target (targetIndex + offset) x)
        (Z.to_nat blockSize) 0 h
  | _, _ => (Irregular, h)
  end.

Definition sqr (target source : loc)
    (targetIndex sourceIndex blockSize : Z) (h : heap) : outcome () * heap :=
  match h !! source, h !! target with
  | Some src, Some tgt =>
    if (sourceIndex <? 0) || (sourceIndex >=? len src)
    then (Throw "sourceIndex out of bounds", h)
    else if (targetIndex <? 0) || (targetIndex >=? len tgt)
    then (Throw "targetIndex out of bounds", h)
    else if sourceIndex + blockSize >? len src
    then (Throw "source indices to be copied are outside bounds", h)
    else if targetIndex + blockSize >? len tgt
    then (Throw "target array is too small to hold result", h)
    else
      for_offset (λ offset h,
          y ← buffer_read h target (targetIndex + offset);
          x ← buffer_read h source (sourceIndex + offset);
          buffer_write h target (targetIndex + offset)
            (elt_add y (elt_pow x elt_two)))
        (Z.to_nat blockSize) 0 h
  | _, _ => (Irregular, h)
  end.

Definition axpy (target source : loc)
    (targetIndex sourceIndex blockSize : Z) (alpha : elt) (h : heap)
    : outcome () * heap :=
  match h !! source, h !! target with
  | Some src, Some tgt =>
    if (sourceIndex <? 0) || (sourceIndex >=? len src)
    then (Throw "sourceIndex out of bounds", h)
    else if (targetIndex <? 0) || (targetIndex >=? len tgt)
    then (Throw "targetIndex out of bounds", h)
    else if sourceIndex + blockSize >? len src
    then (Throw "source indices to be copied are outside bounds", h)
    else if targetIndex + blockSize >? len tgt
    then (Throw "target array is too small to hold result", h)
    else
      for_offset (λ offset h,
          y ← buffer_read h target (targetIndex + offset);
          x ← buffer_read h source (sourceIndex + offset);
          buffer_write h target (targetIndex + offset)
            (elt_add y (elt_mul alpha x)))
        (Z.to_nat blockSize) 0 h
  | _, _ => (Irregular, h)
  end.

Definition powx (target source : loc)
    (targetIndex sourceIndex blockSize : Z) (b : elt) (h : heap)
    : outcome () * heap :=
  match h !! source, h !! target with
  | Some src, Some tgt =>
    if (sourceIndex <? 0) || (sourceIndex >=? len src)
    then (Throw "sourceIndex out of bounds", h)
    else if (targetIndex <? 0) || (targetIndex >=? len tgt)
    then (Throw "targetIndex out of bounds", h)
    else if sourceIndex + blockSize >? len src
    then (Throw "source indices to be copied are outside bounds", h)
    else if targetIndex + blockSize >? len tgt
    then (Throw "target array is too small to hold result", h)
    else
      for_offset (λ offset h,
          x ← buffer_read h source (sourceIndex + offset);
          buffer_write h target (targetIndex + offset) (elt_pow x b))
        (Z.to_nat blockSize) 0 h
  | _, _ => (Irregular, h)
  end.

Definition mul (target source : loc)
    (targetIndex sourceIndex blockSize : Z) (h : heap) : outcome () * heap :=
  match h !! source, h !! target with
  | Some src, Some tgt =>
    if (sourceIndex <? 0) || (sourceIndex >=? len src)
    then (Throw "sourceIndex out of bounds", h)
    else if (targetIndex <? 0) || (targetIndex >=? len tgt)
    then (Throw "targetIndex out of bounds", h)
    else if sourceIndex + blockSize >? len src
    then (Throw "source indices to be copied are outside bounds", h)
    else if targetIndex + blockSize >? len tgt
    then (Throw "target array is too small to hold result", h)
    else
      for_offset (λ offset h,
          x ← buffer_read h source (sourceIndex + offset);
          y ← buffer_read h target (targetIndex + offset);
          buffer_write h target (targetIndex + offset) (elt_mul x y))
        (Z.to_nat blockSize) 0 h
  | _, _ => (Irregular, h)
  end.

End Buffers.

(** Integer buffers, to run the primitives. *)
#[global] Instance Z_Elt : Elt Z := {|
  elt_add := Z.add;
  elt_mul := Z.mul;
  elt_pow := Z.pow;
  elt_two := 2
|}.

(** ** SplitUtil *)
Module SplitUtil.

(** [split.push(v)], [n] times. *)
Fixpoint determineSplit_loop (v : Z) (n : nat) (split : list Z) : list Z :=
  match n with
  | O => split
  | S n' => determineSplit_loop v n' (split ++ [v])
  end.

(** [numElementsAlongAxis] is [None] when the caller read it outside
    [dims]; [undefined % n] and [x % 0] are [NaN], which is [!== 0].  The
    second component is the caller's [split] array after the call. *)
Definition determineSplit (numElementsAlongAxis : option Z) (numOutputs : Z)
    (split : list Z) : outcome () * list Z :=
  match numElementsAlongAxis with
  | None => (Throw "cannot split tensor to equal sized parts", split)
  | Some e =>
    if (numOutputs =? 0) || negb (Z.rem e numOutputs =? 0)
    then (Throw "cannot split tensor to equal sized parts", split)
    else (Ret (),
          determineSplit_loop (Z.quot e numOutputs) (Z.to_nat numOutputs) split)
  end.

Fixpoint splitShape_loop (dims : list Z) (axis : Z) (split : list Z)
    (n : nat) (i : Z) (shapes : list (list Z)) (offsets : list Z)
    : outcome (list (list Z) * list Z) :=
  match n with
  | O => Ret (shapes, offsets)
  | S n' =>
    let offsets :=
      if negb (i =? 0)
      then offsets ++ [get_in offsets (i - 1) + get_in split (i - 1)]
      else offsets in
    match set dims axis (get_in split i) with
    | Some shape =>
      splitShape_loop dims axis split n' (i + 1) (shapes ++ [shape]) offsets
    | None => Irregular
    end
  end.

(** [numOutputs] is [None] when the optional argument is omitted;
    [!numOutputs] also holds for [0].  The second component is the caller's
    [split] array after the call. *)
Definition splitShape (dims : list Z) (axis : Z) (split : list Z)
    (numOutputs : option Z)
    : outcome (list (list Z) * list Z) * list Z :=
  let build split :=
    splitShape_loop dims axis split (Z.to_nat (len split)) 0 [] [0] in
  if len split =? 0 then
    match numOutputs with
    | Some n =>
      if n =? 0
      then (Throw "need to know number of outputs when the 'split' attribute is not specified", split)
      else
        match determineSplit (get dims axis) n split with
        | (Ret _, split) => (build split, split)
        | (Throw msg, split) => (Throw msg, split)
        | (Irregular, split) => (Irregular, split)
        end
    | None =>
      (Throw "need to know number of outputs when the 'split' attribute is not specified", split)
    end
  else (build split, split).

End SplitUtil.

(** ** PoolConvUtil *)

(** The helpers of this class divide with [/] and round only some of the
    quotients: a [number] is a rational here.  The class updates the caller's
    [pads] array in place: a computation takes the array and returns it, as
    it is when the call ends, next to the outcome. *)
Module PoolConvUtil.

Definition M (A : Type) : Type := list Q → outcome A * list Q.

#[local] Instance M_ret : MRet M := λ A a pads, (Ret a, pads).
#[local] Instance M_bind : MBind M := λ A B k m pads,
  match m pads with
  | (Ret a, pads') => k a pads'
  | (Throw msg, pads') => (Throw msg, pads')
  | (Irregular, pads') => (Irregular, pads')
  end.

Definition throw {A} (msg : string) : M A := λ pads, (Throw msg, pads).
Definition irregular {A} : M A := λ pads, (Irregular, pads).

(** [pads[i]] *)
Definition read_pad (i : Z) : M Q := λ pads,
  match get pads i with
  | Some v => (Ret v, pads)
  | None => (Irregular, pads)
  end.

(** [pads[i] = v] *)
Definition write_pad (i : Z) (v : Q) : M () := λ pads,
  match set pads i v with
  | Some pads' => (Ret (), pads')
  | None => (Irregular, pads)
  end.

(** An argument that the caller read from an array: [None] is [undefined],
    and arithmetic on it gives [NaN]. *)
Definition number (x : option Q) : M Q :=
  match x with
  | Some v => mret v
  | None => irregular
  end.

(** [x / y]; a zero divisor gives an infinity or [NaN].  The quotient is
    the exact one; the source's is its rounding to binary64. *)
Definition divide (x y : Q) : M Q :=
  if Qeq_bool y 0 then irregular else mret (x / y)%Q.

(** [Math.floor] *)
Definition floor (x : Q) : Q := inject_Z (Qfloor x).

Definition adjustPadAndReturnShape (inSize stride kernel : option Q)
    (padHeadIndex padTailIndex : Z) (autoPad : option string) : M Q :=
  let explicit_pads : M Q :=
    inSize ← number inSize; stride ← number stride; kernel ← number kernel;
    head ← read_pad padHeadIndex;
    tail ← read_pad padTailIndex;
    q ← divide (inSize + head + tail - kernel)%Q stride;
    mret (floor (q + 1)%Q) in
  match autoPad with
  | Some autoPad =>
    if negb (String.eqb autoPad "") && negb (String.eqb autoPad "NOTSET") then
      if String.eqb autoPad "VALID" then
        write_pad padHeadIndex 0%Q;;
        write_pad padTailIndex 0%Q;;
        inSize ← number inSize; stride ← number stride; kernel ← number kernel;
        q ← divide (inSize - kernel)%Q stride;
        mret (floor (q + 1)%Q)
      else if String.eqb autoPad "SAME_LOWER" then
        inSize ← number inSize; stride ← number stride; kernel ← number kernel;
        legacyTargetSize1 ← divide (inSize + stride - 1)%Q stride;
        let padNeeded1 := ((legacyTargetSize1 - 1) * stride + kernel - inSize)%Q in
        write_pad padHeadIndex (floor ((padNeeded1 + 1) / 2)%Q);;
        head ← read_pad padHeadIndex;
        write_pad padTailIndex (padNeeded1 - head)%Q;;
        q ← divide (inSize + padNeeded1 - kernel)%Q stride;
        mret (floor (q + 1)%Q)
      else if String.eqb autoPad "SAME_UPPER" then
        inSize ← number inSize; stride ← number stride; kernel ← number kernel;
        legacyTargetSize ← divide (inSize + stride - 1)%Q stride;
        let padNeeded := ((legacyTargetSize - 1) * stride + kernel - inSize)%Q in
        write_pad padHeadIndex (floor (padNeeded / 2)%Q);;
        head ← read_pad padHeadIndex;
        write_pad padTailIndex (padNeeded - head)%Q;;
        q ← divide (inSize + padNeeded - kernel)%Q stride;
        mret (floor (q + 1)%Q)
      else throw "Unsupported AutoPad type"
    else explicit_pads
  | None => explicit_pads
  end.

(** The loop [for (let dim = 0; dim < inputDims.length - 2; dim++)] of
    [adjustPadsBasedOnAutoPad], with [n] iterations left. *)
Fixpoint adjustPadsBasedOnAutoPad_loop (inputDims strides kernelShape : list Q)
    (autoPad : option string) (n : nat) (dim : Z) : M () :=
  match n with
  | O => mret ()
  | S n' =>
    adjustPadAndReturnShape (get inputDims (dim + 2)) (get strides dim)
      (get kernelShape dim) dim (dim + len inputDims - 2) autoPad;;
    adjustPadsBasedOnAutoPad_loop inputDims strides kernelShape autoPad
      n' (dim + 1)
  end.

Definition adjustPadsBasedOnAutoPad (inputDims strides kernelShape : list Q)
    (autoPad : option string) : M () := λ pads,
  match autoPad with
  | None | Some EmptyString => (Ret (), pads)
  | Some _ =>
    if negb (len pads =? 2 * (len inputDims - 2))
    then (Throw "length of pads should be twice the length of data dimensions", pads)
    else if negb (len strides =? len inputDims - 2)
    then (Throw "length of strides should be the length of data dimensions", pads)
    else if negb (len kernelShape =? len inputDims - 2)
    then (Throw "length of kernel shapes should be the length of data dimensions", pads)
    else adjustPadsBasedOnAutoPad_loop inputDims strides kernelShape autoPad
           (Z.to_nat (len inputDims - 2)) 0 pads
  end.

(** The two loops of [computeShapeHelper]; [outputDims] is the array the
    caller has just created, returned with the pushed sizes. *)
Fixpoint computeShapeHelper_global (n : nat) (outputDims : list Q) : list Q :=
  match n with
  | O => outputDims
  | S n' => computeShapeHelper_global n' (outputDims ++ [1%Q])
  end.

Fixpoint computeShapeHelper_loop (inputDims strides kernelShape : list Q)
    (autoPad : option string) (n : nat) (dim : Z) (outputDims : list Q)
    : M (list Q) :=
  match n with
  | O => mret outputDims
  | S n' =>
    outSize ← adjustPadAndReturnShape (get inputDims (dim + 2))
                (get strides dim) (get kernelShape dim)
                dim (dim + len inputDims - 2) autoPad;
    computeShapeHelper_loop inputDims strides kernelShape autoPad
      n' (dim + 1) (outputDims ++ [outSize])
  end.

Definition computeShapeHelper (isGlobalOperator : bool)
    (inputDims outputDims strides kernelShape : list Q)
    (autoPad : option string) : M (list Q) :=
  if isGlobalOperator
  then mret (computeShapeHelper_global (Z.to_nat (len inputDims - 2)) outputDims)
  else computeShapeHelper_loop inputDims strides kernelShape autoPad
         (Z.to_nat (len inputDims - 2)) 0 outputDims.

Definition computePoolOutputShape (isGlobalOperator : bool)
    (inputDims strides kernelShape : list Q) (autoPad : option string)
    : M (list Q) :=
  if len inputDims <=? 0
  then throw "input shape must be of size greater than 0"
  else
    d0 ← number (get inputDims 0); d1 ← number (get inputDims 1);
    computeShapeHelper isGlobalOperator inputDims [d0; d1] strides kernelShape
      autoPad.

Definition computeConvOutputShape (inputDims filterDims strides kernelShape : list Q)
    (autoPad : option string) : M (list Q) :=
  if (len inputDims <=? 0) || (len filterDims <=? 0)
  then throw "invalid input tensor dims or invalid filter tensor dims"
  else
    d0 ← number (get inputDims 0); c0 ← number (get filterDims 0);
    computeShapeHelper false inputDims [d0; c0] strides kernelShape autoPad.

(** The first loop of [adjustPoolAttributes], run for a global operator:
    the kernel is made to cover the input's spatial sizes. *)
Fixpoint adjustPoolAttributes_cover (inputDims : list Q) (n : nat) (dim : Z)
    (kernelShape : list Q) : option (list Q) :=
  match n with
  | O => Some kernelShape
  | S n' =>
    v ← get inputDims (dim + 2);
    if dim >=? len kernelShape
    then adjustPoolAttributes_cover inputDims n' (dim + 1) (kernelShape ++ [v])
    else
      kernelShape' ← set kernelShape dim v;
      adjustPoolAttributes_cover inputDims n' (dim + 1) kernelShape'
  end.

(** The loops over [strides] and over [pads]: an entry that is present must
    not be negative, a missing one is pushed.  The two loops differ in their
    bound, in the message and in the pushed value ([1] and [0]). *)
Fixpoint adjustPoolAttributes_fill (msg : string) (value : Q) (n : nat)
    (dim : Z) (arr : list Q) : outcome () * list Q :=
  match n with
  | O => (Ret (), arr)
  | S n' =>
    if dim <? len arr then
      match get arr dim with
      | Some x =>
        if negb (Qle_bool 0 x) then (Throw msg, arr)
        else adjustPoolAttributes_fill msg value n' (dim + 1) arr
      | None => (Irregular, arr)
      end
    else adjustPoolAttributes_fill msg value n' (dim + 1) (arr ++ [value])
  end.

(** The last loop: the sanity checks on kernel sizes and pads. *)
Fixpoint adjustPoolAttributes_check (kernelShape pads : list Q) (n : nat)
    (dim : Z) : outcome () :=
  match n with
  | O => Ret ()
  | S n' =>
    match get kernelShape dim with
    | Some k =>
      if Qle_bool k 0 then Throw "kernel shapes need to be greater than 0"
      else
        match get pads dim, get pads (dim + len kernelShape) with
        | Some head, Some tail =>
          if Qle_bool k head || Qle_bool k tail
          then Throw "pads should be smaller than kernel"
          else adjustPoolAttributes_check kernelShape pads n' (dim + 1)
        | _, _ => Irregular
        end
    | None => Irregular
    end
  end.

(** [adjustPoolAttributes] updates its three array arguments in place: they
    are returned, as they are when the call ends, in the order
    [(kernelShape, strides, pads)]. *)
Definition adjustPoolAttributes (isGlobalOperator : bool)
    (inputDims kernelShape strides pads : list Q)
    : outcome () * (list Q * list Q * list Q) :=
  if negb isGlobalOperator && negb (len kernelShape =? len inputDims - 2)
  then (Throw "length of specified kernel shapes should be 2 less than length of input dimensions",
        (kernelShape, strides, pads))
  else
    match (if isGlobalOperator
           then adjustPoolAttributes_cover inputDims
                  (Z.to_nat (len inputDims - 2)) 0 kernelShape
           else Some kernelShape) with
    | None => (Irregular, (kernelShape, strides, pads))
    | Some kernelShape =>
      match adjustPoolAttributes_fill "strides should be greater than or equal to 1"
              1%Q (Z.to_nat (len kernelShape)) 0 strides with
      | (Ret _, strides) =>
        match adjustPoolAttributes_fill "pad should be greater than or equal to 1"
                0%Q (Z.to_nat (len kernelShape * 2)) 0 pads with
        | (Ret _, pads) =>
          (adjustPoolAttributes_check kernelShape pads
             (Z.to_nat (len kernelShape)) 0,
           (kernelShape, strides, pads))
        | (Throw msg, pads) => (Throw msg, (kernelShape, strides, pads))
        | (Irregular, pads) => (Irregular, (kernelShape, strides, pads))
        end
      | (Throw msg, strides) => (Throw msg, (kernelShape, strides, pads))
      | (Irregular, strides) => (Irregular, (kernelShape, strides, pads))
      end
    end.

End PoolConvUtil.

(** * Vocabulary of the properties *)

(** The spec's unidirectional broadcast: [shape] is no longer than
    [finalShape] and, aligned to the right, each of its dimensions is 1 or
    the dimension of [finalShape]. *)
Definition broadcastable_into (shape finalShape : list Z) : Prop :=
  len shape ≤ len finalShape ∧
  ∀ i, 1 ≤ i ≤ len shape →
    get_in shape (len shape - i) = 1 ∨
    get_in shape (len shape - i) = get_in finalShape (len finalShape - i).

(** The dimension that [calcShape] reads for operand [dims] at distance [i]
    from the right. *)
Definition aligned (dims : list Z) (i : Z) : Z :=
  if len dims - i <? 0 then 1 else get_in dims (len dims - i).

(** The effective dimensions of a rank-2 operand under its transpose flag:
    (rows, columns) of the matrix that is multiplied. *)
Definition effective_dims (shape : list Z) (trans : bool) : option (Z * Z) :=
  match shape with
  | [r; c] => Some (if trans then (c, r) else (r, c))
  | _ => None
  end.

(** The dimensions that hints without -1 resolve to: a zero hint takes the
    original dimension at its index, any other hint is kept. *)
Definition resolve_hints (originalDims shapeHints : list Z) : list Z :=
  imap (λ i hint, if hint =? 0 then get_in originalDims (Z.of_nat i) else hint)
    shapeHints.

(** One of the four checks of the primitives fires. *)
Definition bounds_violated {elt : Type} (tgt src : list elt)
    (targetIndex sourceIndex blockSize : Z) : Prop :=
  sourceIndex < 0 ∨ len src ≤ sourceIndex ∨
  targetIndex < 0 ∨ len tgt ≤ targetIndex ∨
  sourceIndex + blockSize > len src ∨
  targetIndex + blockSize > len tgt.

(** A store with a target buffer of three and a source buffer of two integers. *)
Definition store_3_2 : gmap loc (list Z) :=
  {[ 0%nat := [10; 20; 30]; 1%nat := [1; 2] ]}.

(** The start offsets of [n] parts of size [q]: 0, q, 2q, ... *)
Definition start_offsets (n : nat) (q : Z) : list Z :=
  (λ k : nat, Z.of_nat k * q) <$> seq 0 n.

(** The pads the specification states for SAME_UPPER and SAME_LOWER, on
    integer sizes: the target size is the rounded-up quotient. *)
Definition ceil_div (a b : Z) : Z := - ((- a) / b).

Definition padNeeded_spec (inSize stride kernel : Z) : Z :=
  Z.max 0 ((ceil_div inSize stride - 1) * stride + kernel - inSize).

Definition same_upper_pads_spec (inSize stride kernel : Z) : Z * Z :=
  let padNeeded := padNeeded_spec inSize stride kernel in
  (padNeeded / 2, padNeeded - padNeeded / 2).

Definition same_lower_pads_spec (inSize stride kernel : Z) : Z * Z :=
  let padNeeded := padNeeded_spec inSize stride kernel in
  (ceil_div padNeeded 2, padNeeded - ceil_div padNeeded 2).

(** The number of elements of a shape, and the row-major strides: the
    stride of a dimension is the number of elements of the dimensions to its
    right. *)
Definition product (dims : list Z) : Z := foldr Z.mul 1 dims.

Fixpoint suffix_products (shape : list Z) : list Z :=
  match shape with
  | [] => []
  | _ :: rest => product rest :: suffix_products rest
  end.

(** The flat offset of an index vector under given strides. *)
Fixpoint dot (indices strides : list Z) : Z :=
  match indices, strides with
  | x :: indices', s :: strides' => s * x + dot indices' strides'
  | _, _ => 0
  end.


(** A hint that makes [calculateReshapedDims] throw: below -1, a zero beyond
    the original rank, or a second -1. *)
Definition bad_hint (originalDims shapeHints : list Z) (k : Z) : Prop :=
  0 ≤ k < len shapeHints ∧
  (get_in shapeHints k < -1 ∨
   (get_in shapeHints k = 0 ∧ len originalDims ≤ k) ∨
   (get_in shapeHints k = -1 ∧ ∃ k', 0 ≤ k' < k ∧ get_in shapeHints k' = -1)).


(** The message of the safety check of [getSizeFromDimensionRange]. *)
Definition size_error : string :=
  "cannot get valid size from specified dimension range. Most likely the range contains 0 or negative values in them.".

(** The pairs of aligned dimensions that [calcShape] refuses. *)
Definition incompatible (adims bdims : list Z) (j : Z) : Prop :=
  aligned adims j ≠ aligned bdims j ∧ 1 < aligned adims j ∧ 1 < aligned bdims j.


(** The source position that a copy inside one buffer ends up reading for
    the [k]-th element of the block: towards lower indices the position
    intended, towards higher indices that of an element already copied,
    which repeats the first [targetIndex - sourceIndex] elements. *)
Definition self_copy_source (targetIndex sourceIndex k : Z) : Z :=
  if targetIndex <=? sourceIndex then sourceIndex + k
  else sourceIndex + k `mod` (targetIndex - sourceIndex).




(** An input fits a rank when it has [dims] of that rank. *)
Definition fits (entry : input) (rank : Z) : Prop :=
  ∃ dims, entry = Value (Some dims) ∧ len dims = rank.

(** The inputs are present, as many as the expected ranks, and each fits
    its rank. *)
Definition inputs_fit (inputs : option (list input))
    (expectedDimensions : list Z) : Prop :=
  ∃ entries, inputs = Some entries ∧ Forall2 fits entries expectedDimensions.

(** The inputs are present, as many as the expected ranks, and one of them
    is [null] or [undefined] while all the entries before it fit. *)
Definition nullish_reached (inputs : option (list input))
    (expectedDimensions : list Z) : Prop :=
  ∃ entries k,
    inputs = Some entries ∧ length entries = length expectedDimensions ∧
    entries !! k = Some Nullish ∧
    Forall2 fits (take k entries) (take k expectedDimensions).

(** * Runs of the model *)

Example calcShape_ex1 : BroadcastUtil.calcShape [3; 1; 5] [4; 1] false = Some [3; 4; 5].
Proof. reflexivity. Qed.
Example calcShape_ex2 : BroadcastUtil.calcShape [3; 2] [4] false = None.
Proof. reflexivity. Qed.
Example calcShape_ex3 : BroadcastUtil.calcShape [7; 2; 3] [3; 4] true = Some [7; 2; 4].
Proof. reflexivity. Qed.
Example strides_ex : ShapeUtil.computeStrides [2; 3; 4] = [12; 4; 1].
Proof. reflexivity. Qed.
Example reshape_ex1 : ShapeUtil.calculateReshapedDims [2; 2] [0; -1] = Ret [2; 2].
Proof. reflexivity. Qed.
Example reshape_ex3 : ShapeUtil.calculateReshapedDims [2; 2] [5] = Ret [5].
Proof. reflexivity. Qed.
Example o2i_ex : ShapeUtil.offsetToIndices 17 [12; 4; 1] = Ret [1; 1; 1].
Proof. reflexivity. Qed.
Example i2o_ex : ShapeUtil.indicesToOffset [1; 1; 1] [12; 4; 1] = Ret 17.
Proof. reflexivity. Qed.
Example gemm_ex : GemmUtil.getShapeOfGemmResult [2;3] false [3;4] false [1;4] = Ret [2;4].
Proof. reflexivity. Qed.
Example split_ex : SplitUtil.splitShape [1; 9; 4] 1 [] (Some 3)
  = (Ret ([[1;3;4]; [1;3;4]; [1;3;4]], [0; 3; 6]), [3; 3; 3]).
Proof. reflexivity. Qed.
Example copy_ex : arrayCopyHelper 0%nat 1%nat 1 0 2 {[ 0%nat := [0;0;0]; 1%nat := [7;8;9] ]}
  = (Ret (), {[ 0%nat := [0;7;8]; 1%nat := [7;8;9] ]}).
Proof. vm_compute. reflexivity. Qed.
Example sqr_ex : sqr 0%nat 1%nat 0 1 2 {[ 0%nat := [1;1;1]; 1%nat := [7;8;9] ]}
  = (Ret (), {[ 0%nat := [65;82;1]; 1%nat := [7;8;9] ]}).
Proof. vm_compute. reflexivity. Qed.
Example axpy_ex : axpy 0%nat 1%nat 1 0 2 3 {[ 0%nat := [1;1;1]; 1%nat := [7;8;9] ]}
  = (Ret (), {[ 0%nat := [1;22;25]; 1%nat := [7;8;9] ]}).
Proof. vm_compute. reflexivity. Qed.
Example powx_ex : powx 0%nat 1%nat 0 0 3 2 {[ 0%nat := [1;1;1]; 1%nat := [7;8;9] ]}
  = (Ret (), {[ 0%nat := [49;64;81]; 1%nat := [7;8;9] ]}).
Proof. vm_compute. reflexivity. Qed.
Example mul_alias_ex : mul 0%nat 0%nat 1 0 2 {[ 0%nat := [2;3;5] ]}
  = (Ret (), {[ 0%nat := [2;6;30] ]}).
Proof. vm_compute. reflexivity. Qed.

Example checkInputsShape_ex :
  checkInputsShape (Some [Value (Some [1; 3; 8; 8]); Value (Some [4])]) [4; 1] = Ret true ∧
  checkInputsShape (Some [Value (Some [1; 3]); Nullish]) [2; 1] = Throw "TypeError" ∧
  checkInputsShape (Some [Value None; Nullish]) [2; 1] = Ret false ∧
  checkInputsShape None [2; 1] = Ret false.
Proof. repeat split. Qed.

(** * Properties *)

(** ** Array accessors *)

Lemma len_nonneg {A} (a : list A) : 0 ≤ len a.
Proof. unfold len. lia. Qed.

Lemma get_Some_nat {A} (a : list A) (i : Z) (x : A) :
  get a i = Some x ↔ 0 ≤ i ∧ a !! Z.to_nat i = Some x.
Proof.
  unfold get. destruct (Z.ltb_spec i 0); split; try (intros [? ?]); try done; lia.
Qed.

Lemma get_of_nat {A} (a : list A) (k : nat) : get a (Z.of_nat k) = a !! k.
Proof.
  unfold get. destruct (Z.ltb_spec (Z.of_nat k) 0); [lia|].
  by rewrite Nat2Z.id.
Qed.

Lemma get_to_nat {A} (a : list A) (i : Z) : 0 ≤ i → get a i = a !! Z.to_nat i.
Proof. intros Hi. unfold get. destruct (Z.ltb_spec i 0); [lia | done]. Qed.

Lemma get_in_range {A} (a : list A) (i : Z) :
  0 ≤ i < len a → is_Some (get a i).
Proof.
  intros Hi. unfold get, len in *. destruct (Z.ltb_spec i 0); [lia|].
  apply lookup_lt_is_Some. lia.
Qed.

Lemma get_None_iff {A} (a : list A) (i : Z) :
  get a i = None ↔ i < 0 ∨ len a ≤ i.
Proof.
  unfold get, len. destruct (Z.ltb_spec i 0).
  - split; [left; lia | done].
  - rewrite lookup_ge_None. lia.
Qed.

Lemma get_in_get (a : list Z) (i : Z) (x : Z) :
  get a i = Some x → get_in a i = x.
Proof. unfold get_in. by intros ->. Qed.

Lemma get_get_in (a : list Z) (i : Z) :
  0 ≤ i < len a → get a i = Some (get_in a i).
Proof.
  intros Hi. destruct (get_in_range a i Hi) as [x Hx].
  by rewrite (get_in_get _ _ _ Hx).
Qed.

Lemma get_in_of_nat (a : list Z) (k : nat) (x : Z) :
  a !! k = Some x → get_in a (Z.of_nat k) = x.
Proof. intros Hk. apply get_in_get. by rewrite get_of_nat. Qed.

Lemma len_set_in (a : list Z) (i v : Z) : len (set_in a i v) = len a.
Proof.
  unfold set_in, len. destruct (i <? 0); [done|]. by rewrite length_insert.
Qed.

Lemma get_set_in_eq (a : list Z) (i v : Z) :
  0 ≤ i < len a → get (set_in a i v) i = Some v.
Proof.
  intros Hi. unfold get, set_in, len in *.
  destruct (Z.ltb_spec i 0); [lia|].
  apply list_lookup_insert_eq. lia.
Qed.

Lemma get_set_in_ne (a : list Z) (i j v : Z) :
  i ≠ j → get (set_in a i v) j = get a j.
Proof.
  intros Hij. unfold get, set_in.
  destruct (Z.ltb_spec j 0); [done|].
  destruct (Z.ltb_spec i 0); [done|].
  apply list_lookup_insert_ne. lia.
Qed.

Lemma len_new_Array (n : Z) : 0 ≤ n → len (new_Array n) = n.
Proof. intros Hn. unfold len, new_Array. rewrite length_replicate. lia. Qed.

(** Two arrays with the same reads are the same array. *)
Lemma array_eq (a b : list Z) :
  len a = len b → (∀ i, 0 ≤ i < len a → get a i = get b i) → a = b.
Proof.
  intros Hlen Hget. apply list_eq. intros k.
  destruct (decide (k < length a)%nat) as [Hk|Hk].
  - rewrite <- !get_of_nat. apply Hget. unfold len. lia.
  - rewrite !(proj2 (lookup_ge_None _ _)); [done | unfold len in *; lia | lia].
Qed.

(** ** BroadcastUtil: what the two loops compute *)

Lemma isValidBroadcast_loop_spec (shape finalShape : list Z) (n : nat) (i : Z) :
  BroadcastUtil.isValidBroadcast_loop shape finalShape n i = true ↔
  ∀ j, i ≤ j < i + Z.of_nat n →
    get_in shape (len shape - j) = 1 ∨
    get_in shape (len shape - j) = get_in finalShape (len finalShape - j).
Proof.
  revert i. induction n as [|n IH]; intros i; simpl.
  - split; [intros _ j Hj; lia | done].
  - destruct (Z.eqb_spec (get_in shape (len shape - i)) 1) as [H1|H1]; simpl.
    + rewrite IH. split; intros Hall j Hj.
      * destruct (decide (j = i)) as [->|]; [by left | apply Hall; lia].
      * apply Hall; lia.
    + destruct (Z.eqb_spec (get_in shape (len shape - i))
                  (get_in finalShape (len finalShape - i))) as [H2|H2]; simpl.
      * rewrite IH. split; intros Hall j Hj.
        -- destruct (decide (j = i)) as [->|]; [by right | apply Hall; lia].
        -- apply Hall; lia.
      * split; [done|]. intros Hall.
        destruct (Hall i) as [?|?]; [lia | done | done].
Qed.

Lemma isValidBroadcast_spec (shape finalShape : list Z) :
  BroadcastUtil.isValidBroadcast shape finalShape = true ↔
  broadcastable_into shape finalShape.
Proof.
  unfold BroadcastUtil.isValidBroadcast, broadcastable_into.
  pose proof (len_nonneg shape) as Hs.
  destruct (Z.gtb_spec (len shape) (len finalShape)) as [Hgt|Hle].
  - split; [done | intros [? _]; lia].
  - rewrite isValidBroadcast_loop_spec.
    replace (1 + Z.of_nat (Z.to_nat (len shape - 1 + 1))) with (len shape + 1) by lia.
    split.
    + intros Hall. split; [lia|]. intros i Hi. apply Hall. lia.
    + intros [_ Hall] j Hj. apply Hall. lia.
Qed.

Lemma calcShape_loop_spec (adims bdims : list Z) (crank : Z)
    (n : nat) (i : Z) (cdims c : list Z) :
  1 ≤ i → i + Z.of_nat n = crank + 1 → len cdims = crank →
  BroadcastUtil.calcShape_loop adims bdims crank n i cdims = Some c →
  len c = crank ∧
  ∀ j, i ≤ j ≤ crank →
    ¬ (aligned adims j ≠ aligned bdims j ∧ 1 < aligned adims j ∧ 1 < aligned bdims j) ∧
    get_in c (crank - j) = Z.max (aligned adims j) (aligned bdims j).
Proof.
  revert i cdims. induction n as [|n IH]; intros i cdims Hi Hn Hlen; simpl.
  - intros [= <-]. split; [done|]. intros j Hj. lia.
  - fold (aligned adims i) (aligned bdims i).
    destruct (negb (aligned adims i =? aligned bdims i)
              && (aligned adims i >? 1) && (aligned bdims i >? 1)) eqn:Hbad;
      [done|].
    intros Hloop.
    assert (Hkeep : ∀ n' i' cd c',
      BroadcastUtil.calcShape_loop adims bdims crank n' i' cd = Some c' →
      len cd = crank →
      ∀ k, crank - i' < k → get c' k = get cd k).
    { clear. induction n' as [|n' IH']; intros i' cd c'; simpl.
      - by intros [= <-].
      - destruct (_ && _); [done|]. intros Hl Hlen k Hk.
        rewrite (IH' _ _ _ Hl); [| by rewrite len_set_in | lia].
        apply get_set_in_ne. lia. }
    destruct (IH (i + 1) _ ltac:(lia) ltac:(lia)
                ltac:(by rewrite len_set_in) Hloop) as [Hlenc Hall].
    split; [done|]. intros j Hj.
    destruct (decide (j = i)) as [->|Hne]; [|apply Hall; lia].
    split.
    + intros (Hneq & Ha & Hb).
      apply andb_false_iff in Hbad as [Hbad|Hbad];
        [apply andb_false_iff in Hbad as [Hbad|Hbad]|].
      * apply negb_false_iff, Z.eqb_eq in Hbad. done.
      * rewrite Z.gtb_ltb in Hbad. apply Z.ltb_ge in Hbad. lia.
      * rewrite Z.gtb_ltb in Hbad. apply Z.ltb_ge in Hbad. lia.
    + apply get_in_get.
      rewrite (Hkeep _ _ _ _ Hloop); [| by rewrite len_set_in | lia].
      apply get_set_in_eq. lia.
Qed.

Lemma get_in_Forall (P : Z → Prop) (dims : list Z) (i : Z) :
  Forall P dims → 0 ≤ i < len dims → P (get_in dims i).
Proof.
  intros HP Hi. pose proof (get_get_in dims i Hi) as Hget.
  apply get_Some_nat in Hget as [_ Hget].
  by eapply Forall_lookup_1.
Qed.

Lemma aligned_pos (dims : list Z) (j : Z) :
  Forall (λ d, 0 < d) dims → 1 ≤ j → 0 < aligned dims j.
Proof.
  intros Hpos Hj. unfold aligned.
  destruct (Z.ltb_spec (len dims - j) 0); [lia|].
  apply (get_in_Forall (λ d, 0 < d)); [done | lia].
Qed.

(** C6: for shapes [a] and [b] of positive integers, a result [c] of
    [calcShape a b] (isMatMul false) satisfies [isValidBroadcast a c]: the
    rank of [a] is at most the rank of [c], and every dimension of [a],
    aligned to the right, is 1 or the dimension of [c]. *)
Theorem calcShape_isValidBroadcast (a b c : list Z) :
  Forall (λ d, 0 < d) a → Forall (λ d, 0 < d) b →
  BroadcastUtil.calcShape a b false = Some c →
  BroadcastUtil.isValidBroadcast a c = true ∧
  len a ≤ len c ∧
  ∀ i, 1 ≤ i ≤ len a →
    get_in a (len a - i) = 1 ∨ get_in a (len a - i) = get_in c (len c - i).
Proof.
  intros Ha Hb Hc.
  assert (Hspec : broadcastable_into a c).
  { unfold BroadcastUtil.calcShape in Hc.
    pose proof (len_nonneg a). pose proof (len_nonneg b).
    apply calcShape_loop_spec in Hc as [Hlen Hall];
      [| lia | lia | apply len_new_Array; lia].
    split; [lia|]. intros i Hi.
    destruct (Hall i ltac:(lia)) as [Hok Hmax].
    pose proof (aligned_pos a i Ha ltac:(lia)) as Hai.
    pose proof (aligned_pos b i Hb ltac:(lia)) as Hbi.
    rewrite Hlen, Hmax.
    assert (Heq : aligned a i = get_in a (len a - i)).
    { unfold aligned. destruct (Z.ltb_spec (len a - i) 0); [lia | done]. }
    rewrite <- Heq. lia. }
  split; [by apply isValidBroadcast_spec|]. exact Hspec.
Qed.

Lemma calcShape_isValidBroadcast_witness :
  BroadcastUtil.calcShape [3; 1; 5] [4; 1] false = Some [3; 4; 5] ∧
  BroadcastUtil.isValidBroadcast [3; 1; 5] [3; 4; 5] = true.
Proof.
  split; [reflexivity|].
  apply (calcShape_isValidBroadcast [3; 1; 5] [4; 1] [3; 4; 5]).
  - repeat constructor.
  - repeat constructor.
  - reflexivity.
Defined.

(** ** GemmUtil *)

Lemma effective_dims_None (shape : list Z) (trans : bool) :
  effective_dims shape trans = None ↔ len shape ≠ 2.
Proof.
  unfold len. destruct shape as [|r [|c [|? ?]]]; simpl; split; try done; lia.
Qed.

(** C7: [getShapeOfGemmResult] throws unless both operands have rank 2; with
    (M,K) the effective dimensions of the left operand and (K',N) those of
    the right one under the transpose flags, it throws when K and K' differ,
    when one of M, N, K is not positive, or when [biasShape] does not
    broadcast unidirectionally into [M,N], and returns [M,N] otherwise.  It
    returns [2,4] for [2,3] x [3,4] with bias [1,4] and throws for
    [2,3] x [5,4]. *)
Theorem getShapeOfGemmResult_spec (leftShape rightShape biasShape : list Z)
    (transLeft transRight : bool) :
  ((len leftShape ≠ 2 ∨ len rightShape ≠ 2) →
   throws (GemmUtil.getShapeOfGemmResult leftShape transLeft rightShape
             transRight biasShape)) ∧
  (∀ M K K' N,
     effective_dims leftShape transLeft = Some (M, K) →
     effective_dims rightShape transRight = Some (K', N) →
     ((K ≠ K' ∨ M ≤ 0 ∨ N ≤ 0 ∨ K ≤ 0 ∨ ¬ broadcastable_into biasShape [M; N]) →
      throws (GemmUtil.getShapeOfGemmResult leftShape transLeft rightShape
                transRight biasShape)) ∧
     (K = K' → 0 < M → 0 < N → 0 < K → broadcastable_into biasShape [M; N] →
      GemmUtil.getShapeOfGemmResult leftShape transLeft rightShape
        transRight biasShape = Ret [M; N])) ∧
  GemmUtil.getShapeOfGemmResult [2; 3] false [3; 4] false [1; 4] = Ret [2; 4] ∧
  throws (GemmUtil.getShapeOfGemmResult [2; 3] false [5; 4] false [1; 4]).
Proof.
  split; [|split; [|split; [reflexivity | by eexists]]].
  - intros Hrank. unfold GemmUtil.getShapeOfGemmResult.
    destruct (Z.eqb_spec (len leftShape) 2), (Z.eqb_spec (len rightShape) 2);
      simpl; try (by eexists). lia.
  - intros M K K' N Hl Hr.
    destruct leftShape as [|l0 [|l1 [|? ?]]]; try done.
    destruct rightShape as [|r0 [|r1 [|? ?]]]; try done.
    simpl in Hl, Hr.
    assert (Hcode :
      GemmUtil.getShapeOfGemmResult [l0; l1] transLeft [r0; r1] transRight biasShape =
      if negb (K' =? K) then Throw "dimension mismatch"
      else if (M <=? 0) || (N <=? 0) || (K <=? 0)
      then Throw "invalid shape specified"
      else if negb (BroadcastUtil.isValidBroadcast biasShape [M; N])
      then Throw "gemm: invalid bias shape for broadcast"
      else Ret [M; N]).
    { destruct transLeft, transRight; simplify_eq; reflexivity. }
    rewrite Hcode. clear Hcode Hl Hr.
    destruct (Z.eqb_spec K' K) as [HK|HK]; simpl.
    2: { split; [by eexists | intros; congruence]. }
    destruct (Z.leb_spec M 0), (Z.leb_spec N 0), (Z.leb_spec K 0); simpl;
      try (split; [by eexists | intros; lia]).
    destruct (BroadcastUtil.isValidBroadcast biasShape [M; N]) eqn:Hb; simpl.
    + apply isValidBroadcast_spec in Hb. split; [|done].
      intros [?|[?|[?|[?|?]]]]; first [lia | congruence | done].
    + split; [by eexists|]. intros _ _ _ _ Hbc.
      apply isValidBroadcast_spec in Hbc. congruence.
Qed.

Lemma getShapeOfGemmResult_spec_witness :
  GemmUtil.getShapeOfGemmResult [3; 2] true [4; 3] true [4] = Ret [2; 4] ∧
  throws (GemmUtil.getShapeOfGemmResult [2; 3; 1] false [3; 4] false [1; 4]).
Proof.
  pose proof (getShapeOfGemmResult_spec [3; 2] [4; 3] [4] true true)
    as (_ & Hsome & _).
  pose proof (getShapeOfGemmResult_spec [2; 3; 1] [3; 4] [1; 4] false false)
    as (Hrank & _).
  split.
  - destruct (Hsome 2 3 3 4 eq_refl eq_refl) as [_ Hret].
    apply Hret; [reflexivity | lia | lia | lia |].
    apply isValidBroadcast_spec. reflexivity.
  - apply Hrank. left. vm_compute. discriminate.
Defined.

(** ** ShapeUtil.getActualAxisFromNegativeValue *)

(** The guard is the conjunction [axis < -tensorRank && axis > tensorRank - 1],
    which no axis satisfies once [tensorRank >= 1]: the function never
    throws there. *)
Lemma getActualAxisFromNegativeValue_total (axis tensorRank : Z) :
  1 ≤ tensorRank →
  ShapeUtil.getActualAxisFromNegativeValue axis tensorRank =
  Ret (if axis <? 0 then axis + tensorRank else axis).
Proof.
  intros Hrank. unfold ShapeUtil.getActualAxisFromNegativeValue.
  destruct (Z.ltb_spec axis (- tensorRank)); simpl; [|done].
  rewrite Z.gtb_ltb. destruct (Z.ltb_spec (tensorRank - 1) axis); [lia | done].
Qed.

(** C3, at the failing input: for axis -3 and rank 2, where the specification has the
    call fail ([-3 < -2]), the code returns -1. *)
Theorem getActualAxisFromNegativeValue_below_range :
  ShapeUtil.getActualAxisFromNegativeValue (-3) 2 = Ret (-1).
Proof. reflexivity. Qed.

(** The rest of C3 holds: an axis in [-tensorRank, -1] is shifted by the
    rank, an axis that is not negative is returned as it is. *)
Lemma getActualAxisFromNegativeValue_in_range (axis tensorRank : Z) :
  1 ≤ tensorRank →
  (- tensorRank ≤ axis ≤ -1 →
   ShapeUtil.getActualAxisFromNegativeValue axis tensorRank = Ret (axis + tensorRank)) ∧
  (0 ≤ axis →
   ShapeUtil.getActualAxisFromNegativeValue axis tensorRank = Ret axis).
Proof.
  intros Hrank. rewrite getActualAxisFromNegativeValue_total by done.
  destruct (Z.ltb_spec axis 0); split; intros; first [done | lia].
Qed.

(** ** ShapeUtil.calculateReshapedDims *)

Lemma calculateReshapedDims_loop_no_unknown (originalDims shapeHints : list Z)
    (n : nat) (i : Z) (st : ShapeUtil.reshape_state) :
  0 ≤ i → i + Z.of_nat n = len shapeHints →
  len (ShapeUtil.reshapedDims st) = len shapeHints →
  ShapeUtil.unknownDimension st = -1 →
  (∀ k, 0 ≤ k < len shapeHints →
     0 ≤ get_in shapeHints k ∧ (get_in shapeHints k = 0 → k < len originalDims)) →
  ∃ st',
    ShapeUtil.calculateReshapedDims_loop originalDims shapeHints n i st = Ret st' ∧
    ShapeUtil.unknownDimension st' = -1 ∧
    len (ShapeUtil.reshapedDims st') = len shapeHints ∧
    (∀ k, i ≤ k < len shapeHints →
       get (ShapeUtil.reshapedDims st') k =
       Some (if get_in shapeHints k =? 0 then get_in originalDims k
             else get_in shapeHints k)) ∧
    (∀ k, 0 ≤ k < i →
       get (ShapeUtil.reshapedDims st') k = get (ShapeUtil.reshapedDims st) k).
Proof.
  revert i st. induction n as [|n IH]; intros i st Hi Hn Hlen Hunk Hhints; simpl.
  - exists st. repeat split; try done. intros k Hk. lia.
  - destruct (Hhints i ltac:(lia)) as [Hge Hzero].
    destruct (Z.ltb_spec (get_in shapeHints i) (-1)); [lia|].
    destruct (Z.eqb_spec (get_in shapeHints i) (-1)); [lia|].
    set (v := if get_in shapeHints i =? 0 then get_in originalDims i
              else get_in shapeHints i).
    assert (Hdims :
      (if get_in shapeHints i =? 0
       then if i >=? len originalDims
            then Throw "the dimension with value zero exceeds the dimension size of the input tensor"
            else Ret (set_in (ShapeUtil.reshapedDims st) i (get_in originalDims i))
       else Ret (set_in (ShapeUtil.reshapedDims st) i (get_in shapeHints i)))
      = Ret (set_in (ShapeUtil.reshapedDims st) i v)).
    { unfold v. destruct (Z.eqb_spec (get_in shapeHints i) 0) as [H0|H0]; [|done].
      rewrite Z.geb_leb. destruct (Z.leb_spec (len originalDims) i); [|done].
      specialize (Hzero H0). lia. }
    rewrite Hdims. simpl.
    destruct (IH (i + 1)
                (ShapeUtil.ReshapeState
                   (set_in (ShapeUtil.reshapedDims st) i v)
                   (ShapeUtil.unknownDimension st)
                   (ShapeUtil.size_known st
                    * get_in (set_in (ShapeUtil.reshapedDims st) i v) i)))
      as (st' & Hloop & Hunk' & Hlen' & Hres & Hframe);
      [lia | lia | simpl; by rewrite len_set_in | done | done |].
    exists st'. split; [exact Hloop|]. split; [done|]. split; [done|]. split.
    + intros k Hk. destruct (decide (k = i)) as [->|Hne].
      * rewrite Hframe by lia. simpl. apply get_set_in_eq. lia.
      * apply Hres. lia.
    + intros k Hk. rewrite Hframe by lia. simpl. apply get_set_in_ne. lia.
Qed.

(** When no hint is -1 the function performs no check of the total at all:
    it returns the resolved hints whatever their product. *)
Lemma calculateReshapedDims_no_unknown (originalDims shapeHints : list Z) :
  (∀ k, 0 ≤ k < len shapeHints →
     0 ≤ get_in shapeHints k ∧ (get_in shapeHints k = 0 → k < len originalDims)) →
  ShapeUtil.calculateReshapedDims originalDims shapeHints =
  Ret (resolve_hints originalDims shapeHints).
Proof.
  intros Hhints. unfold ShapeUtil.calculateReshapedDims.
  pose proof (len_nonneg shapeHints) as Hnn.
  destruct (calculateReshapedDims_loop_no_unknown originalDims shapeHints
              (Z.to_nat (len shapeHints)) 0
              (ShapeUtil.ReshapeState (new_Array (len shapeHints)) (-1) 1))
    as (st' & Hloop & Hunk & Hlen & Hres & _);
    [lia | lia | by apply len_new_Array | done | done |].
  rewrite Hloop. simpl. rewrite Hunk. simpl. f_equal.
  assert (Hlenr : len (resolve_hints originalDims shapeHints) = len shapeHints).
  { unfold len, resolve_hints. by rewrite length_imap. }
  apply array_eq; [lia|].
  intros k Hk. rewrite Hres by lia.
  rewrite (get_to_nat (resolve_hints _ _)) by lia.
  unfold resolve_hints. rewrite list_lookup_imap.
  pose proof (get_get_in shapeHints k ltac:(lia)) as Hget.
  apply get_Some_nat in Hget as [_ Hget]. rewrite Hget. simpl.
  by rewrite Z2Nat.id by lia.
Qed.

(** C2, at the failing input: for the original shape [2,2] and the hint [5],
    where the specification (and the comment above the function) has the call fail,
    the code returns [5], a shape of 5 elements for a tensor of 4. *)
Theorem calculateReshapedDims_mismatch_accepted :
  ShapeUtil.calculateReshapedDims [2; 2] [5] = Ret [5] ∧
  ShapeUtil.size [2; 2] = Ret 4 ∧
  ShapeUtil.size [5] = Ret 5.
Proof. repeat split; reflexivity. Qed.

(** The two other examples of C2 hold. *)
Lemma calculateReshapedDims_examples :
  ShapeUtil.calculateReshapedDims [2; 2] [0; -1] = Ret [2; 2] ∧
  ShapeUtil.calculateReshapedDims [2; 2] [4] = Ret [4].
Proof. split; reflexivity. Qed.

(** ** arrayCopyHelper and MathUtil: the bounds checks *)

Section BufferProperties.
Context {elt : Type} `{Elt elt}.

Ltac run_checks :=
  repeat match goal with
  | |- context [?x <? ?y] => destruct (Z.ltb_spec x y); simpl
  | |- context [?x >=? ?y] =>
      rewrite (Z.geb_leb x y); destruct (Z.leb_spec y x); simpl
  | |- context [?x >? ?y] =>
      rewrite (Z.gtb_ltb x y); destruct (Z.ltb_spec y x); simpl
  end.

(** C4: when the source index or the target index is outside its buffer, or
    the block reaches beyond the end of the source or of the target, each of
    [arrayCopyHelper], [sqr], [axpy], [powx] and [mul] throws and the store,
    hence the target and the source buffer, is as before the call. *)
Theorem primitives_fail_before_write (h : gmap loc (list elt))
    (target source : loc) (tgt src : list elt)
    (targetIndex sourceIndex blockSize : Z) (alpha b : elt) :
  h !! target = Some tgt → h !! source = Some src →
  bounds_violated tgt src targetIndex sourceIndex blockSize →
  (∃ msg, arrayCopyHelper target source targetIndex sourceIndex blockSize h
          = (Throw msg, h)) ∧
  (∃ msg, sqr target source targetIndex sourceIndex blockSize h
          = (Throw msg, h)) ∧
  (∃ msg, axpy target source targetIndex sourceIndex blockSize alpha h
          = (Throw msg, h)) ∧
  (∃ msg, powx target source targetIndex sourceIndex blockSize b h
          = (Throw msg, h)) ∧
  (∃ msg, mul target source targetIndex sourceIndex blockSize h
          = (Throw msg, h)).
Proof.
  intros Ht Hs Hbad.
  unfold arrayCopyHelper, sqr, axpy, powx, mul. rewrite Ht, Hs.
  unfold bounds_violated in Hbad.
  repeat split; run_checks; try (by eexists); exfalso; lia.
Qed.

(** C10: with both indices inside their buffers and a block size that is
    zero or negative, each of the five primitives returns without throwing
    and the store is as before the call: the loop body is never run. *)
Theorem primitives_empty_block (h : gmap loc (list elt))
    (target source : loc) (tgt src : list elt)
    (targetIndex sourceIndex blockSize : Z) (alpha b : elt) :
  h !! target = Some tgt → h !! source = Some src →
  0 ≤ targetIndex < len tgt → 0 ≤ sourceIndex < len src →
  blockSize ≤ 0 →
  arrayCopyHelper target source targetIndex sourceIndex blockSize h = (Ret (), h) ∧
  sqr target source targetIndex sourceIndex blockSize h = (Ret (), h) ∧
  axpy target source targetIndex sourceIndex blockSize alpha h = (Ret (), h) ∧
  powx target source targetIndex sourceIndex blockSize b h = (Ret (), h) ∧
  mul target source targetIndex sourceIndex blockSize h = (Ret (), h).
Proof.
  intros Ht Hs Hti Hsi Hbs.
  unfold arrayCopyHelper, sqr, axpy, powx, mul. rewrite Ht, Hs.
  replace (Z.to_nat blockSize) with 0%nat by lia.
  repeat split; run_checks; first [done | exfalso; lia].
Qed.

End BufferProperties.

Lemma primitives_fail_before_write_witness :
  ∃ msg, arrayCopyHelper 0%nat 1%nat 0 1 2 store_3_2 = (Throw msg, store_3_2).
Proof.
  apply (primitives_fail_before_write store_3_2 0%nat 1%nat
           [10; 20; 30] [1; 2] 0 1 2 0 0).
  - reflexivity.
  - reflexivity.
  - unfold bounds_violated, len. simpl. lia.
Defined.

Lemma primitives_empty_block_witness :
  mul 0%nat 1%nat 2 1 (-4) store_3_2 = (Ret (), store_3_2).
Proof.
  apply (primitives_empty_block store_3_2 0%nat 1%nat
           [10; 20; 30] [1; 2] 2 1 (-4) 0 0).
  - reflexivity.
  - reflexivity.
  - unfold len. simpl. lia.
  - unfold len. simpl. lia.
  - lia.
Defined.

(** ** SplitUtil *)

Lemma determineSplit_loop_app (v : Z) (n : nat) (split : list Z) :
  SplitUtil.determineSplit_loop v n split = split ++ replicate n v.
Proof.
  revert split. induction n as [|n IH]; intros split; simpl.
  - by rewrite app_nil_r.
  - rewrite IH, <- app_assoc. done.
Qed.

(** [determineSplit] on a count that divides the number of elements pushes
    that many copies of the quotient on the caller's array. *)
Lemma determineSplit_divides (d n q : Z) (split : list Z) :
  n ≠ 0 → d = n * q →
  SplitUtil.determineSplit (Some d) n split =
  (Ret (), split ++ replicate (Z.to_nat n) q).
Proof.
  intros Hn ->. unfold SplitUtil.determineSplit.
  destruct (Z.eqb_spec n 0); [done|]. simpl.
  rewrite (Z.mul_comm n q), Z.rem_mul by done. simpl.
  by rewrite Z.quot_mul, determineSplit_loop_app by done.
Qed.

Lemma determineSplit_not_divides (d n : Z) (split : list Z) :
  ¬ (n | d) →
  SplitUtil.determineSplit (Some d) n split =
  (Throw "cannot split tensor to equal sized parts", split).
Proof.
  intros Hdiv. unfold SplitUtil.determineSplit.
  destruct (Z.eqb_spec n 0); [done|]. simpl.
  destruct (Z.eqb_spec (Z.rem d n) 0) as [Hrem|]; [|done].
  apply Z.rem_divide in Hrem; done.
Qed.

Lemma start_offsets_S (n : nat) (q : Z) :
  start_offsets (S n) q = start_offsets n q ++ [Z.of_nat n * q].
Proof. unfold start_offsets. by rewrite seq_S, fmap_app. Qed.

Lemma splitShape_loop_equal_parts (dims shape : list Z) (axis q : Z)
    (N m i : nat) (shapes : list (list Z)) :
  set dims axis q = Some shape →
  (1 ≤ i)%nat → (i + m = N)%nat →
  SplitUtil.splitShape_loop dims axis (replicate N q) m (Z.of_nat i)
    shapes (start_offsets i q) =
  Ret (shapes ++ replicate m shape, start_offsets N q).
Proof.
  intros Hset. revert i shapes. induction m as [|m IH]; intros i shapes Hi HN; simpl.
  - rewrite app_nil_r. by replace N with i by lia.
  - destruct (Z.eqb_spec (Z.of_nat i) 0); [lia|]. simpl.
    assert (Hq : ∀ k, (k < N)%nat → get_in (replicate N q) (Z.of_nat k) = q).
    { intros k Hk. apply get_in_of_nat. by apply lookup_replicate_2. }
    replace (Z.of_nat i - 1) with (Z.of_nat (i - 1)) by lia.
    rewrite !Hq by lia. rewrite Hset.
    assert (Hoff : get_in (start_offsets i q) (Z.of_nat (i - 1))
                   = Z.of_nat (i - 1) * q).
    { apply get_in_of_nat. unfold start_offsets.
      rewrite list_lookup_fmap, lookup_seq_lt by lia. done. }
    rewrite Hoff.
    replace (Z.of_nat (i - 1) * q + q) with (Z.of_nat i * q)
      by (replace (Z.of_nat i) with (Z.of_nat (i - 1) + 1) by lia; ring).
    rewrite <- start_offsets_S.
    replace (Z.of_nat i + 1) with (Z.of_nat (S i)) by lia.
    rewrite IH by lia. by rewrite <- app_assoc.
Qed.

Lemma set_in_range {A} (a : list A) (i : Z) (x v : A) :
  get a i = Some x → set a i v = Some (<[Z.to_nat i := v]> a).
Proof.
  intros Hget. unfold set.
  assert (0 ≤ i < len a) as Hi.
  { destruct (decide (0 ≤ i < len a)) as [|Hn]; [done|].
    assert (get a i = None) by (apply get_None_iff; lia). congruence. }
  destruct (Z.leb_spec 0 i), (Z.ltb_spec i (len a)); simpl; try lia. done.
Qed.

(** [splitShape] with an empty [split] and a positive count that divides
    [dims[axis]]: the result and the caller's array after the call. *)
Lemma splitShape_equal_parts (dims : list Z) (axis d n q : Z) :
  get dims axis = Some d → 0 < n → d = n * q →
  SplitUtil.splitShape dims axis [] (Some n) =
  (Ret (replicate (Z.to_nat n) (<[Z.to_nat axis := q]> dims),
        start_offsets (Z.to_nat n) q),
   replicate (Z.to_nat n) q).
Proof.
  intros Hd Hn Hq. unfold SplitUtil.splitShape. simpl.
  destruct (Z.eqb_spec n 0); [lia|].
  rewrite Hd, (determineSplit_divides d n q) by (done || lia). simpl.
  f_equal.
  assert (Hlen : Z.to_nat (len (replicate (Z.to_nat n) q)) = Z.to_nat n).
  { unfold len. rewrite length_replicate. lia. }
  rewrite Hlen.
  destruct (Z.to_nat n) as [|m] eqn:Hm; [lia|].
  pose proof (set_in_range dims axis d q Hd) as Hset.
  cbn [SplitUtil.splitShape_loop]. simpl (negb (0 =? 0)). cbv iota.
  assert (Hq0 : get_in (replicate (S m) q) 0 = q) by reflexivity.
  rewrite Hq0, Hset.
  change (0 + 1) with (Z.of_nat 1). change [0] with (start_offsets 1 q).
  by rewrite (splitShape_loop_equal_parts dims _ axis q (S m) m 1 _ Hset) by lia.
Qed.

(** C8: [splitShape] with an empty [split] throws when [numOutputs] is
    omitted (or zero) and when it does not divide [dims[axis]]; for a
    positive [numOutputs] with [dims[axis] = numOutputs * q] it returns
    [numOutputs] copies of [dims] with the dimension of the axis replaced by
    [q], and the start offsets 0, q, 2q, ...  [splitShape([1,9,4],1,[],3)]
    returns three shapes [1,3,4] with offsets [0,3,6];
    [splitShape([1,10,4],1,[],3)] throws. *)
Theorem splitShape_empty_split (dims : list Z) (axis d : Z) :
  get dims axis = Some d →
  throws (SplitUtil.splitShape dims axis [] None).1 ∧
  throws (SplitUtil.splitShape dims axis [] (Some 0)).1 ∧
  (∀ n, ¬ (n | d) → throws (SplitUtil.splitShape dims axis [] (Some n)).1) ∧
  (∀ n q, 0 < n → d = n * q →
     (SplitUtil.splitShape dims axis [] (Some n)).1 =
     Ret (replicate (Z.to_nat n) (<[Z.to_nat axis := q]> dims),
          start_offsets (Z.to_nat n) q)) ∧
  (SplitUtil.splitShape [1; 9; 4] 1 [] (Some 3)).1 =
    Ret ([[1; 3; 4]; [1; 3; 4]; [1; 3; 4]], [0; 3; 6]) ∧
  throws (SplitUtil.splitShape [1; 10; 4] 1 [] (Some 3)).1.
Proof.
  intros Hd. split; [by eexists|]. split; [by eexists|].
  split; [|split; [|split]].
  - intros n Hdiv. unfold SplitUtil.splitShape. simpl.
    destruct (Z.eqb_spec n 0); [by eexists|].
    rewrite Hd, determineSplit_not_divides by done. by eexists.
  - intros n q Hn Hq. by rewrite (splitShape_equal_parts dims axis d n q).
  - reflexivity.
  - by eexists.
Qed.

Lemma splitShape_empty_split_witness :
  (SplitUtil.splitShape [2; 8] 1 [] (Some 4)).1 =
    Ret ([[2; 2]; [2; 2]; [2; 2]; [2; 2]], [0; 2; 4; 6]) ∧
  throws (SplitUtil.splitShape [2; 8] 1 [] (Some 3)).1.
Proof.
  pose proof (splitShape_empty_split [2; 8] 1 8 eq_refl)
    as (_ & _ & Hfail & Hparts & _).
  split.
  - apply (Hparts 4 2); lia.
  - apply Hfail. intros [k Hk]. lia.
Defined.

(** C9: on an empty [split] and a positive [numOutputs] with
    [dims[axis] = numOutputs * q], [determineSplit] pushes [numOutputs]
    copies of [q] on the caller's array, and after [splitShape] the
    caller's array holds these copies: it is no longer empty. *)
Theorem splitShape_mutates_split (dims : list Z) (axis d n q : Z) :
  get dims axis = Some d → 0 < n → d = n * q →
  (SplitUtil.determineSplit (get dims axis) n []).2 = replicate (Z.to_nat n) q ∧
  (SplitUtil.splitShape dims axis [] (Some n)).2 = replicate (Z.to_nat n) q ∧
  (SplitUtil.splitShape dims axis [] (Some n)).2 ≠ [].
Proof.
  intros Hd Hn Hq.
  rewrite (splitShape_equal_parts dims axis d n q) by done.
  rewrite Hd, (determineSplit_divides d n q) by (done || lia). simpl.
  repeat split. destruct (Z.to_nat n) eqn:Hm; [lia | done].
Qed.

Lemma splitShape_mutates_split_witness :
  (SplitUtil.splitShape [1; 9; 4] 1 [] (Some 3)).2 = [3; 3; 3].
Proof.
  apply (splitShape_mutates_split [1; 9; 4] 1 9 3 3); [reflexivity | lia | lia].
Defined.

(** ** PoolConvUtil: the automatic pads *)

(** [legacyTargetSize] is the quotient [(inSize + stride - 1) / stride]
    itself, not its integer part, so that in exact arithmetic [padNeeded] is
    [kernel - 1] whatever the stride.  The source's floating point agrees
    where the quotient is a binary64 number, as at the input of C1. *)
Lemma padNeeded_exact (inSize stride kernel : Q) :
  (¬ stride == 0 →
   ((inSize + stride - 1) / stride - 1) * stride + kernel - inSize == kernel - 1)%Q.
Proof. intros Hs. field. exact Hs. Qed.


(** C1, at the failing input: for input size 32, stride 2 and kernel 3 the
    specification states the pads (0,1) under SAME_UPPER and (1,0) under
    SAME_LOWER; [computePoolOutputShape] leaves the pads (1,1) under both,
    with the output size 16.  The numbers of this run (33/2 = 16.5, 15.5 * 2,
    31/2 = 15.5, ...) are halves of small integers, which binary floating
    point represents exactly: the rational run is the run of the code. *)
Theorem autoPad_32_2_3 :
  same_upper_pads_spec 32 2 3 = (0, 1) ∧
  same_lower_pads_spec 32 2 3 = (1, 0) ∧
  (PoolConvUtil.computePoolOutputShape false [1; 3; 32]%Q [2]%Q [3]%Q
     (Some "SAME_UPPER") [0; 0]%Q).1 = Ret [1; 3; 16]%Q ∧
  Qred <$> (PoolConvUtil.computePoolOutputShape false [1; 3; 32]%Q [2]%Q [3]%Q
     (Some "SAME_UPPER") [0; 0]%Q).2 = [1; 1]%Q ∧
  (PoolConvUtil.computePoolOutputShape false [1; 3; 32]%Q [2]%Q [3]%Q
     (Some "SAME_LOWER") [0; 0]%Q).1 = Ret [1; 3; 16]%Q ∧
  Qred <$> (PoolConvUtil.computePoolOutputShape false [1; 3; 32]%Q [2]%Q [3]%Q
     (Some "SAME_LOWER") [0; 0]%Q).2 = [1; 1]%Q.
Proof. repeat split; vm_compute; reflexivity. Qed.

(** The same pads come out of [adjustPadsBasedOnAutoPad] and of
    [computeConvOutputShape]. *)
Lemma autoPad_32_2_3_siblings :
  Qred <$> (PoolConvUtil.adjustPadsBasedOnAutoPad [1; 3; 32]%Q [2]%Q [3]%Q
     (Some "SAME_UPPER") [0; 0]%Q).2 = [1; 1]%Q ∧
  Qred <$> (PoolConvUtil.computeConvOutputShape [1; 3; 32]%Q [8; 3; 3]%Q [2]%Q [3]%Q
     (Some "SAME_UPPER") [0; 0]%Q).2 = [1; 1]%Q ∧
  (PoolConvUtil.computeConvOutputShape [1; 3; 32]%Q [8; 3; 3]%Q [2]%Q [3]%Q
     (Some "SAME_UPPER") [0; 0]%Q).1 = Ret [1; 8; 16]%Q.
Proof. repeat split; vm_compute; reflexivity. Qed.

(** The explicit pads of the specification's pooling example. *)
Lemma computePoolOutputShape_explicit_pads :
  PoolConvUtil.computePoolOutputShape false [1; 3; 32; 32]%Q [1; 1]%Q [2; 2]%Q
    None [0; 0; 0; 0]%Q = (Ret [1; 3; 31; 31]%Q, [0; 0; 0; 0]%Q).
Proof. vm_compute. reflexivity. Qed.

(** ** ShapeUtil: strides, offsets and indices *)

Lemma length_suffix_products (shape : list Z) :
  length (suffix_products shape) = length shape.
Proof. induction shape as [|d shape IH]; simpl; [done | by rewrite IH]. Qed.


Lemma lookup_suffix_products (shape : list Z) (k : nat) :
  (k < length shape)%nat →
  suffix_products shape !! k = Some (product (drop (S k) shape)).
Proof.
  revert k. induction shape as [|d shape IH]; intros k Hk; simpl in *; [lia|].
  destruct k as [|k]; simpl; [by rewrite drop_0|]. apply IH. lia.
Qed.

Lemma product_drop (shape : list Z) (k : nat) (d : Z) :
  shape !! k = Some d →
  product (drop k shape) = d * product (drop (S k) shape).
Proof. intros Hk. by rewrite (drop_S _ _ _ Hk). Qed.

Lemma dot_bound (indices shape : list Z) :
  Forall2 (λ x d, 0 ≤ x < d) indices shape →
  0 ≤ dot indices (suffix_products shape) < product shape.
Proof.
  induction 1 as [|x d indices shape Hx _ IH]; simpl; [lia|].
  fold (product shape). nia.
Qed.

Lemma dot_app (xs xs' ss ss' : list Z) :
  length xs = length ss →
  dot (xs ++ xs') (ss ++ ss') = dot xs ss + dot xs' ss'.
Proof.
  revert ss. induction xs as [|x xs IH]; intros [|s ss] Hlen; simpl in *;
    try done.
  rewrite IH by lia. lia.
Qed.

Lemma split_last {A} (l : list A) (n : nat) (x : A) :
  length l = S n → l !! n = Some x → l = take n l ++ [x].
Proof.
  intros Hlen Hx. rewrite <- (take_drop_middle l n x Hx) at 1.
  by rewrite drop_ge by lia.
Qed.

(** [computeStrides] computes the row-major strides. *)
Lemma computeStrides_loop_spec (shape : list Z) (n : nat) (strides : list Z) :
  Z.of_nat n < len shape →
  len strides = len shape →
  (∀ k, Z.of_nat n ≤ k < len shape →
     get strides k = Some (product (drop (S (Z.to_nat k)) shape))) →
  len (ShapeUtil.computeStrides_loop shape n (Z.of_nat n - 1) strides) = len shape ∧
  ∀ k, 0 ≤ k < len shape →
    get (ShapeUtil.computeStrides_loop shape n (Z.of_nat n - 1) strides) k
    = Some (product (drop (S (Z.to_nat k)) shape)).
Proof.
  revert strides. induction n as [|n IH]; intros strides Hn Hlen Hinv.
  - simpl. split; [done|]. intros k Hk. apply Hinv. lia.
  - cbn [ShapeUtil.computeStrides_loop].
    replace (Z.of_nat (S n) - 1) with (Z.of_nat n) by lia.
    replace (Z.of_nat n + 1) with (Z.of_nat (S n)) by lia.
    apply IH; [lia | by rewrite len_set_in |].
    intros k Hk. destruct (decide (k = Z.of_nat n)) as [->|Hne].
    + rewrite get_set_in_eq by lia. f_equal.
      rewrite (get_in_get _ _ _ (Hinv (Z.of_nat (S n)) ltac:(lia))).
      destruct (get_in_range shape (Z.of_nat (S n)) ltac:(lia)) as [d Hd].
      rewrite (get_in_get _ _ _ Hd). rewrite get_of_nat in Hd.
      rewrite !Nat2Z.id. rewrite (product_drop shape (S n) d Hd). lia.
    + rewrite get_set_in_ne by lia. apply Hinv. lia.
Qed.

Lemma computeStrides_suffix_products (shape : list Z) :
  shape ≠ [] → ShapeUtil.computeStrides shape = suffix_products shape.
Proof.
  intros Hne. unfold ShapeUtil.computeStrides.
  assert (1 ≤ len shape) as Hrank.
  { unfold len. destruct shape; [done | simpl; lia]. }
  destruct (Z.ltb_spec (len shape) 2) as [Hlt|Hge].
  - destruct shape as [|d [|d' shape]]; try done. unfold len in Hlt. simpl in Hlt. lia.
  - set (strides0 :=
      set_in (set_in (new_Array (len shape)) (len shape - 1) 1)
        (len shape - 2) (get_in shape (len shape - 1))).
    assert (Hlen0 : len strides0 = len shape).
    { unfold strides0. rewrite !len_set_in. apply len_new_Array. lia. }
    remember (Z.to_nat (len shape - 3 + 1)) as n eqn:Hn.
    replace (len shape - 3) with (Z.of_nat n - 1) by lia.
    destruct (computeStrides_loop_spec shape n strides0)
      as [Hlen Hget]; [lia | done | |].
    { intros k Hk. unfold strides0.
      destruct (decide (k = len shape - 2)) as [->|Hne2].
      - rewrite get_set_in_eq by (rewrite len_set_in, len_new_Array; lia).
        f_equal.
        destruct (get_in_range shape (len shape - 1) ltac:(lia)) as [d Hd].
        rewrite (get_in_get _ _ _ Hd). apply get_Some_nat in Hd as [_ Hd].
        replace (S (Z.to_nat (len shape - 2))) with (Z.to_nat (len shape - 1)) by lia.
        rewrite (product_drop shape _ d Hd).
        rewrite drop_ge by (unfold len; lia). simpl. lia.
      - rewrite get_set_in_ne by lia.
        replace k with (len shape - 1) by lia.
        rewrite get_set_in_eq by (rewrite len_new_Array; lia).
        by rewrite drop_ge by (unfold len; lia). }
    apply array_eq.
    + rewrite Hlen. unfold len. by rewrite length_suffix_products.
    + intros k Hk. rewrite Hget by lia.
      rewrite (get_to_nat (suffix_products shape)) by lia.
      rewrite lookup_suffix_products; [done | unfold len in *; lia].
Qed.

(** [indicesToOffset] adds up the products of indices and strides. *)
Lemma indicesToOffset_loop_spec (indices strides : list Z) (n i : nat) (index : Z) :
  (i + n ≤ length strides)%nat → (i + n ≤ length indices)%nat →
  ShapeUtil.indicesToOffset_loop indices strides n (Z.of_nat i) index =
  Ret (index + dot (take n (drop i indices)) (take n (drop i strides))).
Proof.
  revert i index. induction n as [|n IH]; intros i index Hs Hi; simpl.
  - f_equal. lia.
  - rewrite get_of_nat.
    destruct (lookup_lt_is_Some_2 strides i ltac:(lia)) as [s Hsi].
    destruct (lookup_lt_is_Some_2 indices i ltac:(lia)) as [x Hxi].
    rewrite Hsi, (get_in_of_nat _ _ _ Hxi).
    replace (Z.of_nat i + 1) with (Z.of_nat (S i)) by lia.
    rewrite IH by lia. f_equal.
    rewrite (drop_S _ _ _ Hsi), (drop_S _ _ _ Hxi). simpl. lia.
Qed.

Lemma indicesToOffset_dot (indices strides : list Z) (n : nat) :
  length indices = S n → length strides = S n → strides !! n = Some 1 →
  ShapeUtil.indicesToOffset indices strides = Ret (dot indices strides).
Proof.
  intros Hli Hls Hlast. unfold ShapeUtil.indicesToOffset.
  destruct (Z.eqb_spec (len strides) 0) as [H0|_]; [unfold len in H0; lia|].
  destruct (lookup_lt_is_Some_2 indices n ltac:(lia)) as [x Hx].
  replace (len indices - 1) with (Z.of_nat n) by (unfold len; lia).
  rewrite get_of_nat, Hx, Nat2Z.id.
  rewrite (indicesToOffset_loop_spec indices strides n 0) by (simpl; lia).
  rewrite !drop_0. f_equal.
  rewrite (split_last indices n x Hli Hx) at 2.
  rewrite (split_last strides n 1 Hls Hlast) at 2.
  rewrite dot_app by (rewrite !length_take; lia). simpl. lia.
Qed.




(** * Further properties of the shape utilities *)

(** ** ShapeUtil: sizes *)

Lemma product_app (l k : list Z) : product (l ++ k) = product l * product k.
Proof.
  unfold product. induction l as [|d l IH]; simpl; [lia|]. rewrite IH. lia.
Qed.


(** The range loop on dimensions that are all positive multiplies them. *)
Lemma getSizeFromDimensionRange_loop_pos (dims : list Z) (n i : nat) (size : Z) :
  (i + n ≤ length dims)%nat →
  Forall (λ d, 0 < d) (take n (drop i dims)) →
  ShapeUtil.getSizeFromDimensionRange_loop dims n (Z.of_nat i) (Some size) =
  Ret (size * product (take n (drop i dims))).
Proof.
  revert i size. induction n as [|n IH]; intros i size Hlen Hpos; simpl.
  - f_equal. unfold product. simpl. lia.
  - rewrite get_of_nat.
    destruct (lookup_lt_is_Some_2 dims i ltac:(lia)) as [d Hd].
    rewrite Hd. rewrite (drop_S _ _ _ Hd) in Hpos |- *. simpl in Hpos |- *.
    apply Forall_cons in Hpos as [Hd0 Hpos].
    destruct (Z.leb_spec d 0); [lia|].
    replace (Z.of_nat i + 1) with (Z.of_nat (S i)) by lia.
    rewrite IH by (done || lia). f_equal. fold (product (take n (drop (S i) dims))). lia.
Qed.

(** The safety check fires on a dimension of the range that is zero or
    negative, whatever the size accumulated so far. *)
Lemma getSizeFromDimensionRange_loop_throws (dims : list Z) (n i : nat)
    (size : option Z) :
  (i + n ≤ length dims)%nat →
  Exists (λ d, d ≤ 0) (take n (drop i dims)) →
  throws (ShapeUtil.getSizeFromDimensionRange_loop dims n (Z.of_nat i) size).
Proof.
  revert i size. induction n as [|n IH]; intros i size Hlen Hex; simpl.
  - by apply Exists_nil in Hex.
  - rewrite get_of_nat.
    destruct (lookup_lt_is_Some_2 dims i ltac:(lia)) as [d Hd].
    rewrite Hd. rewrite (drop_S _ _ _ Hd) in Hex. simpl in Hex.
    destruct (Z.leb_spec d 0); [by eexists|].
    apply Exists_cons in Hex as [Hd0|Hex]; [lia|].
    replace (Z.of_nat i + 1) with (Z.of_nat (S i)) by lia.
    apply IH; [lia | done].
Qed.

Lemma size_of_positive (dims : list Z) :
  Forall (λ d, 0 < d) dims → ShapeUtil.size dims = Ret (product dims).
Proof.
  intros Hdims. unfold ShapeUtil.size, ShapeUtil.getSizeFromDimensionRange.
  replace (Z.to_nat (len dims - 0)) with (length dims) by (unfold len; lia).
  change 0 with (Z.of_nat 0).
  rewrite getSizeFromDimensionRange_loop_pos; rewrite ?drop_0, ?firstn_all;
    [f_equal; lia | simpl; lia | done].
Qed.

Lemma size_of_nonpositive (dims : list Z) :
  Exists (λ d, d ≤ 0) dims → throws (ShapeUtil.size dims).
Proof.
  intros Hdims. unfold ShapeUtil.size, ShapeUtil.getSizeFromDimensionRange.
  replace (Z.to_nat (len dims - 0)) with (length dims) by (unfold len; lia).
  change 0 with (Z.of_nat 0).
  apply getSizeFromDimensionRange_loop_throws; [simpl; lia|].
  by rewrite drop_0, firstn_all.
Qed.

(** X1: [size] returns the product of the dimensions when they are all
    positive and the product is at most 2^53 (1 for the empty shape), and
    throws as soon as one dimension is zero or negative.  Up to 2^53 every
    partial product is an integer that the source's numbers hold exactly. *)
Theorem size_product (dims : list Z) :
  (Forall (λ d, 0 < d) dims → product dims ≤ 2 ^ 53 →
   ShapeUtil.size dims = Ret (product dims)) ∧
  (Exists (λ d, d ≤ 0) dims → throws (ShapeUtil.size dims)).
Proof.
  split; [|apply size_of_nonpositive].
  intros Hpos _. by apply size_of_positive.
Qed.

Lemma size_product_witness :
  ShapeUtil.size [2; 3; 4] = Ret 24 ∧ throws (ShapeUtil.size [2; 0; 4]).
Proof.
  pose proof (size_product [2; 3; 4]) as [Hpos _].
  pose proof (size_product [2; 0; 4]) as [_ Hneg].
  split.
  - apply Hpos; [|by apply Z.leb_le]. repeat (constructor; [lia|]). constructor.
  - apply Hneg. apply Exists_cons_tl, Exists_cons_hd. lia.
Defined.

Lemma sizeToDimension_of_positive (dims : list Z) (axis : Z) :
  Forall (λ d, 0 < d) dims → 0 ≤ axis ≤ len dims →
  ShapeUtil.sizeToDimension dims axis = Ret (product (take (Z.to_nat axis) dims)).
Proof.
  intros Hpos Haxis. unfold len in Haxis.
  unfold ShapeUtil.sizeToDimension, ShapeUtil.getSizeFromDimensionRange.
  rewrite Z.gtb_ltb. destruct (Z.ltb_spec (len dims) axis); [unfold len in *; lia|].
  replace (Z.to_nat (axis - 0)) with (Z.to_nat axis) by lia.
  change 0 with (Z.of_nat 0).
  rewrite getSizeFromDimensionRange_loop_pos; rewrite ?drop_0;
    [f_equal; lia | simpl; lia | by apply Forall_take].
Qed.

Lemma sizeFromDimension_of_positive (dims : list Z) (axis : Z) :
  Forall (λ d, 0 < d) dims → 0 ≤ axis ≤ len dims →
  ShapeUtil.sizeFromDimension dims axis = Ret (product (drop (Z.to_nat axis) dims)).
Proof.
  intros Hpos Haxis. unfold len in Haxis.
  unfold ShapeUtil.sizeFromDimension, ShapeUtil.getSizeFromDimensionRange.
  rewrite Z.gtb_ltb. destruct (Z.ltb_spec (len dims) axis); [unfold len in *; lia|].
  rewrite <- (Z2Nat.id axis) at 2 by lia.
  rewrite getSizeFromDimensionRange_loop_pos.
  - f_equal. rewrite take_ge; [lia|]. rewrite length_drop. unfold len. lia.
  - unfold len. lia.
  - by apply Forall_take, Forall_drop.
Qed.

(** X2: for a shape of positive dimensions with at most 2^53 elements and
    an axis between 0 and the rank, [sizeToDimension] returns the product of
    the dimensions before the axis and [sizeFromDimension] the product of
    the dimensions from the axis on, and these two multiply to [size]; both
    throw for an axis beyond the rank, whatever the shape. *)
Theorem sizeToDimension_sizeFromDimension (dims : list Z) (axis : Z) :
  (Forall (λ d, 0 < d) dims → product dims ≤ 2 ^ 53 →
   0 ≤ axis ≤ len dims →
   ShapeUtil.sizeToDimension dims axis = Ret (product (take (Z.to_nat axis) dims)) ∧
   ShapeUtil.sizeFromDimension dims axis = Ret (product (drop (Z.to_nat axis) dims)) ∧
   ShapeUtil.size dims =
     Ret (product (take (Z.to_nat axis) dims) * product (drop (Z.to_nat axis) dims))) ∧
  (len dims < axis →
   throws (ShapeUtil.sizeToDimension dims axis) ∧
   throws (ShapeUtil.sizeFromDimension dims axis)).
Proof.
  split.
  - intros Hpos _ Haxis.
    rewrite sizeToDimension_of_positive, sizeFromDimension_of_positive by done.
    rewrite (size_of_positive dims Hpos).
    by rewrite <- product_app, take_drop.
  - intros Haxis.
    unfold ShapeUtil.sizeToDimension, ShapeUtil.sizeFromDimension.
    rewrite Z.gtb_ltb. destruct (Z.ltb_spec (len dims) axis); [|lia].
    split; by eexists.
Qed.

Lemma sizeToDimension_sizeFromDimension_witness :
  ShapeUtil.sizeToDimension [2; 3; 4] 1 = Ret 2 ∧
  ShapeUtil.sizeFromDimension [2; 3; 4] 1 = Ret 12 ∧
  ShapeUtil.size [2; 3; 4] = Ret (2 * 12).
Proof.
  apply (sizeToDimension_sizeFromDimension [2; 3; 4] 1).
  - repeat (constructor; [lia|]). constructor.
  - by apply Z.leb_le.
  - unfold len. simpl. lia.
Defined.

(** ** ShapeUtil: strides and offsets *)

(** X3: for a shape of positive dimensions with at most 2^53 elements, the
    stride that [computeStrides] gives to dimension [i] is the number of
    elements of the dimensions after it, as [sizeFromDimension] counts
    them. *)
Theorem computeStrides_sizeFromDimension (shape : list Z) (i : Z) :
  Forall (λ d, 0 < d) shape → product shape ≤ 2 ^ 53 → 0 ≤ i < len shape →
  get (ShapeUtil.computeStrides shape) i = Some (product (drop (S (Z.to_nat i)) shape)) ∧
  ShapeUtil.sizeFromDimension shape (i + 1) =
    Ret (get_in (ShapeUtil.computeStrides shape) i).
Proof.
  intros Hpos _ Hi.
  assert (Hget : get (ShapeUtil.computeStrides shape) i
                 = Some (product (drop (S (Z.to_nat i)) shape))).
  { rewrite computeStrides_suffix_products
      by (destruct shape; [unfold len in Hi; simpl in Hi; lia | done]).
    rewrite get_to_nat by lia.
    apply lookup_suffix_products. unfold len in Hi. lia. }
  split; [done|].
  rewrite (get_in_get _ _ _ Hget), sizeFromDimension_of_positive by (done || lia).
  by replace (Z.to_nat (i + 1)) with (S (Z.to_nat i)) by lia.
Qed.

Lemma computeStrides_sizeFromDimension_witness :
  ShapeUtil.sizeFromDimension [2; 3; 4] (0 + 1) =
    Ret (get_in (ShapeUtil.computeStrides [2; 3; 4]) 0).
Proof.
  apply (computeStrides_sizeFromDimension [2; 3; 4] 0).
  - repeat (constructor; [lia|]). constructor.
  - by apply Z.leb_le.
  - unfold len. simpl. lia.
Defined.

Lemma computeOffset_loop_spec (index stride : list Z) (n i : nat) (offset : Z) :
  (i + n ≤ length index)%nat → (i + n ≤ length stride)%nat →
  ShapeUtil.computeOffset_loop index stride n (Z.of_nat i) offset =
  Ret (offset + dot (take n (drop i index)) (take n (drop i stride))).
Proof.
  revert i offset. induction n as [|n IH]; intros i offset Hi Hs; simpl.
  - f_equal. lia.
  - rewrite !get_of_nat.
    destruct (lookup_lt_is_Some_2 index i ltac:(lia)) as [x Hx].
    destruct (lookup_lt_is_Some_2 stride i ltac:(lia)) as [s Hsi].
    rewrite Hx, Hsi.
    replace (Z.of_nat i + 1) with (Z.of_nat (S i)) by lia.
    rewrite IH by lia. f_equal.
    rewrite (drop_S _ _ _ Hx), (drop_S _ _ _ Hsi). simpl. lia.
Qed.

(** X4: under the strides of [computeStrides] for a shape of rank at least
    1 with at most 2^53 elements, [computeOffset] without an axis and
    [indicesToOffset] return the same offset for every index in range of
    the shape: the sum of the indices times their strides. *)
Theorem computeOffset_indicesToOffset (shape index : list Z) :
  (1 ≤ length shape)%nat → product shape ≤ 2 ^ 53 →
  Forall2 (λ x d, 0 ≤ x < d) index shape →
  ShapeUtil.computeOffset index (ShapeUtil.computeStrides shape) None =
    Ret (dot index (ShapeUtil.computeStrides shape)) ∧
  ShapeUtil.indicesToOffset index (ShapeUtil.computeStrides shape) =
    Ret (dot index (ShapeUtil.computeStrides shape)).
Proof.
  intros Hrank _ Hidx. pose proof (Forall2_length _ _ _ Hidx) as Hlen.
  rewrite computeStrides_suffix_products by (destruct shape; [simpl in Hrank; lia | done]).
  pose proof (length_suffix_products shape) as Hls.
  split.
  - unfold ShapeUtil.computeOffset.
    replace (Z.to_nat (len index)) with (length index) by (unfold len; lia).
    change 0 with (Z.of_nat 0) at 1.
    rewrite computeOffset_loop_spec by (simpl; lia).
    rewrite !drop_0, firstn_all, take_ge by lia. f_equal.
  - destruct (length shape) as [|n] eqn:Hn; [lia|].
    apply (indicesToOffset_dot _ _ n); [lia | lia |].
    rewrite lookup_suffix_products by lia. by rewrite drop_ge by lia.
Qed.

Lemma computeOffset_indicesToOffset_witness :
  ShapeUtil.computeOffset [1; 2; 3] (ShapeUtil.computeStrides [2; 3; 4]) None = Ret 23 ∧
  ShapeUtil.indicesToOffset [1; 2; 3] (ShapeUtil.computeStrides [2; 3; 4]) = Ret 23.
Proof.
  apply (computeOffset_indicesToOffset [2; 3; 4] [1; 2; 3]).
  - simpl. lia.
  - by apply Z.leb_le.
  - repeat (constructor; [lia|]). constructor.
Defined.

Lemma indicesToOffset_computeStrides (shape index : list Z) :
  (1 ≤ length shape)%nat → length index = length shape →
  ShapeUtil.indicesToOffset index (ShapeUtil.computeStrides shape) =
  Ret (dot index (suffix_products shape)).
Proof.
  intros Hrank Hlen.
  rewrite computeStrides_suffix_products by (destruct shape; [simpl in Hrank; lia | done]).
  pose proof (length_suffix_products shape) as Hls.
  destruct (length shape) as [|n] eqn:Hn; [lia|].
  apply (indicesToOffset_dot _ _ n); [lia | lia |].
  rewrite lookup_suffix_products by lia. by rewrite drop_ge by lia.
Qed.

(** ** ShapeUtil.incrementIndex *)

Lemma get_middle {A} (xs rest : list A) (x : A) :
  get (xs ++ x :: rest) (Z.of_nat (length xs)) = Some x.
Proof. rewrite get_of_nat. apply list_lookup_middle. done. Qed.

Lemma set_in_middle (xs rest : list Z) (x v : Z) :
  set_in (xs ++ x :: rest) (Z.of_nat (length xs)) v = xs ++ v :: rest.
Proof.
  unfold set_in. destruct (Z.ltb_spec (Z.of_nat (length xs)) 0); [lia|].
  rewrite Nat2Z.id, insert_app_r_alt by lia.
  by rewrite Nat.sub_diag.
Qed.

Lemma suffix_products_snoc (ds : list Z) (d : Z) :
  suffix_products (ds ++ [d]) = ((λ p, p * d) <$> suffix_products ds) ++ [1].
Proof.
  induction ds as [|d0 ds IH]; simpl; [done|].
  rewrite IH. f_equal. fold (product (ds ++ [d])) (product ds).
  rewrite product_app. unfold product. simpl. lia.
Qed.

(** The offset of an index vector, read from the right: the last index
    counts once, the others count [d] times as much, [d] being the last
    dimension. *)
Lemma dot_snoc (xs ds : list Z) (x d : Z) :
  length xs = length ds →
  dot (xs ++ [x]) (suffix_products (ds ++ [d])) =
  d * dot xs (suffix_products ds) + x.
Proof.
  revert ds. induction xs as [|x0 xs IH]; intros [|d0 ds] Hlen; simpl in *;
    try done; [lia|].
  injection Hlen as Hlen. rewrite (IH ds Hlen).
  fold (product (ds ++ [d])) (product ds).
  rewrite product_app. unfold product at 2. simpl. lia.
Qed.

(** The carry loop on the first [length ds] positions of an index in range:
    it leaves the other positions alone and adds one to the offset of these
    positions, modulo the number of their elements. *)
Lemma incrementIndex_loop_spec (ds : list Z) :
  ∀ (xs rest drest : list Z),
    Forall2 (λ x d, 0 ≤ x < d) xs ds →
    ∃ xs',
      ShapeUtil.incrementIndex_loop (ds ++ drest) (length ds)
        (Z.of_nat (length ds) - 1) (xs ++ rest) = Ret (xs' ++ rest) ∧
      Forall2 (λ x d, 0 ≤ x < d) xs' ds ∧
      dot xs' (suffix_products ds) =
        (dot xs (suffix_products ds) + 1) `mod` product ds.
Proof.
  induction ds as [|d ds IH] using rev_ind; intros xs rest drest Hxs.
  - apply Forall2_nil_inv_r in Hxs as ->. exists []. simpl. repeat split; done.
  - apply Forall2_app_inv_r in Hxs as (xs0 & xl & Hxs0 & Hxl & ->).
    apply Forall2_cons_inv_r in Hxl as (x & xl' & Hx & Hnil & ->).
    apply Forall2_nil_inv_r in Hnil as ->.
    pose proof (Forall2_length _ _ _ Hxs0) as Hlen0.
    rewrite length_app, Nat.add_1_r. cbn [ShapeUtil.incrementIndex_loop].
    replace (Z.of_nat (S (length ds)) - 1) with (Z.of_nat (length xs0)) by lia.
    rewrite <- !app_assoc. cbn [app].
    rewrite get_middle, !set_in_middle.
    rewrite (get_in_get _ _ _ (get_middle xs0 rest (x + 1))).
    rewrite Hlen0, get_middle.
    pose proof (dot_bound xs0 ds Hxs0) as Hbound.
    rewrite product_app. replace (product [d]) with d by (unfold product; simpl; lia).
    destruct (Z.ltb_spec (x + 1) d) as [Hlt|Hge]; cbn [negb].
    + exists (xs0 ++ [x + 1]). rewrite <- app_assoc. split; [done|]. split.
      * apply Forall2_app; [done|]. constructor; [lia | constructor].
      * rewrite !dot_snoc by done.
        rewrite Z.mod_small; [lia | nia].
    + destruct (IH xs0 (0 :: rest) (d :: drest) Hxs0) as (xs0' & Hloop & Hr & Hdot).
      rewrite Hloop. exists (xs0' ++ [0]). rewrite <- app_assoc. split; [done|].
      split.
      * apply Forall2_app; [done|]. constructor; [lia | constructor].
      * rewrite !dot_snoc by (done || by apply Forall2_length in Hr).
        rewrite Hdot.
        replace (d * dot xs0 (suffix_products ds) + x + 1)
          with ((dot xs0 (suffix_products ds) + 1) * d) by lia.
        rewrite Zmult_mod_distr_r. lia.
Qed.

(** X5: on an index in range of [dims] (rank at least 1, at most 2^53
    elements), [incrementIndex] without an axis leaves an index in range
    whose offset under the strides of [dims] is the next one, and 0 after
    the last element: the offset advances by one modulo [size(dims)]. *)
Theorem incrementIndex_next_offset (index dims : list Z) :
  (1 ≤ length dims)%nat →
  product dims ≤ 2 ^ 53 →
  Forall2 (λ x d, 0 ≤ x < d) index dims →
  ∃ index' offset total,
    ShapeUtil.incrementIndex index dims None = Ret index' ∧
    Forall2 (λ x d, 0 ≤ x < d) index' dims ∧
    ShapeUtil.size dims = Ret total ∧
    ShapeUtil.indicesToOffset index (ShapeUtil.computeStrides dims) = Ret offset ∧
    ShapeUtil.indicesToOffset index' (ShapeUtil.computeStrides dims) =
      Ret ((offset + 1) `mod` total).
Proof.
  intros Hrank _ Hidx.
  destruct (incrementIndex_loop_spec dims index [] [] Hidx) as (index' & Hloop & Hr & Hdot).
  rewrite !app_nil_r in Hloop.
  exists index', (dot index (suffix_products dims)), (product dims).
  split; [|split; [done|split; [|split]]].
  - unfold ShapeUtil.incrementIndex.
    replace (Z.to_nat (len dims)) with (length dims) by (unfold len; lia).
    exact Hloop.
  - apply size_of_positive.
    apply Forall2_Forall_r with (P := λ x d, 0 ≤ x < d) (l := index); [done|].
    apply Forall_forall. intros x _ d Hd. lia.
  - apply indicesToOffset_computeStrides; [done | by apply Forall2_length in Hidx].
  - rewrite indicesToOffset_computeStrides; [by rewrite Hdot | done |].
    by apply Forall2_length in Hr.
Qed.

Lemma incrementIndex_next_offset_witness :
  ∃ index' offset total,
    ShapeUtil.incrementIndex [1; 2; 3] [2; 3; 4] None = Ret index' ∧
    Forall2 (λ x d, 0 ≤ x < d) index' [2; 3; 4] ∧
    ShapeUtil.size [2; 3; 4] = Ret total ∧
    ShapeUtil.indicesToOffset [1; 2; 3] (ShapeUtil.computeStrides [2; 3; 4]) = Ret offset ∧
    ShapeUtil.indicesToOffset index' (ShapeUtil.computeStrides [2; 3; 4]) =
      Ret ((offset + 1) `mod` total).
Proof.
  apply (incrementIndex_next_offset [1; 2; 3] [2; 3; 4]).
  - simpl. lia.
  - by apply Z.leb_le.
  - repeat (constructor; [lia|]). constructor.
Defined.

(** ** ShapeUtil.calculateReshapedDims with an inferred dimension *)







Lemma calculateReshapedDims_loop_throws (originalDims shapeHints : list Z)
    (n : nat) (i k : Z) (st : ShapeUtil.reshape_state) :
  0 ≤ i → i + Z.of_nat n = len shapeHints → i ≤ k < len shapeHints →
  (get_in shapeHints k < -1 ∨
   (get_in shapeHints k = 0 ∧ len originalDims ≤ k) ∨
   (get_in shapeHints k = -1 ∧
    (ShapeUtil.unknownDimension st ≠ -1 ∨
     ∃ k', i ≤ k' < k ∧ get_in shapeHints k' = -1))) →
  throws (ShapeUtil.calculateReshapedDims_loop originalDims shapeHints n i st).
Proof.
  revert i st. induction n as [|n IH]; intros i st Hi Hn Hk Hbad; simpl; [lia|].
  destruct (Z.ltb_spec (get_in shapeHints i) (-1)) as [|Hge]; [by eexists|].
  destruct (Z.eqb_spec (get_in shapeHints i) (-1)) as [Hm1|Hne].
  - destruct (Z.eqb_spec (ShapeUtil.unknownDimension st) (-1)) as [Hu1|Hu];
      simpl; [|by eexists].
    apply IH; [lia | lia | |].
    + destruct (decide (k = i)) as [->|]; [|lia].
      destruct Hbad as [?|[[? _]|[_ [?|(k' & ? & _)]]]]; lia.
    + simpl. destruct Hbad as [?|[?|[? _]]]; [by left | by right; left |].
      right; right. split; [done|]. left. lia.
  - destruct (Z.eqb_spec (get_in shapeHints i) 0) as [H0|H0].
    + rewrite Z.geb_leb.
      destruct (Z.leb_spec (len originalDims) i) as [|Hin]; simpl; [by eexists|].
      apply IH; [lia | lia | |].
      * destruct (decide (k = i)) as [->|]; [|lia].
        destruct Hbad as [?|[[_ ?]|[? _]]]; lia.
      * simpl. destruct Hbad as [?|[?|[? [?|(k' & Hk' & Hm)]]]];
          [by left | by right; left | by right; right; split; [|left] | ].
        right; right. split; [done|]. right. exists k'. split; [|done].
        destruct (decide (k' = i)) as [->|]; [congruence | lia].
    + simpl. apply IH; [lia | lia | |].
      * destruct (decide (k = i)) as [->|]; [|lia].
        destruct Hbad as [?|[[? _]|[? _]]]; lia.
      * simpl. destruct Hbad as [?|[?|[? [?|(k' & Hk' & Hm)]]]];
          [by left | by right; left | by right; right; split; [|left] | ].
        right; right. split; [done|]. right. exists k'. split; [|done].
        destruct (decide (k' = i)) as [->|]; [congruence | lia].
Qed.

(** X7: [calculateReshapedDims] throws whenever a hint is below -1, a zero
    hint stands at an index beyond the original rank, or two hints are
    -1. *)
Theorem calculateReshapedDims_rejects (originalDims shapeHints : list Z) (k : Z) :
  bad_hint originalDims shapeHints k →
  throws (ShapeUtil.calculateReshapedDims originalDims shapeHints).
Proof.
  intros [Hk Hbad]. unfold ShapeUtil.calculateReshapedDims.
  destruct (calculateReshapedDims_loop_throws originalDims shapeHints
              (Z.to_nat (len shapeHints)) 0 k
              (ShapeUtil.ReshapeState (new_Array (len shapeHints)) (-1) 1))
    as [msg Hmsg]; [lia | lia | lia | |].
  - destruct Hbad as [?|[?|[? ?]]]; [by left | by right; left |].
    right; right. split; [done|]. by right.
  - rewrite Hmsg. by eexists.
Qed.

Lemma calculateReshapedDims_rejects_witness :
  throws (ShapeUtil.calculateReshapedDims [2; 3; 4] [-1; 2; -1]).
Proof.
  apply (calculateReshapedDims_rejects [2; 3; 4] [-1; 2; -1] 2).
  split; [unfold len; simpl; lia|].
  right; right. split; [reflexivity|]. exists 0. split; [lia | reflexivity].
Defined.

(** ** ShapeUtil: validation and comparison of shapes *)

Lemma validateDims_each_spec (dims : list Z) :
  (ShapeUtil.validateDims_each dims = Ret () ↔
   Forall (λ d, 1 ≤ d ≤ 2147483647) dims) ∧
  (ShapeUtil.validateDims_each dims = Ret () ∨
   throws (ShapeUtil.validateDims_each dims)).
Proof.
  induction dims as [|d dims [IH1 IH2]]; simpl.
  - split; [done | by left].
  - rewrite Z.gtb_ltb.
    destruct (Z.leb_spec d 0), (Z.ltb_spec 2147483647 d); simpl.
    1-3: split; [split; [done | intros Hall; apply Forall_cons in Hall as [? _]; lia]
                | right; by eexists].
    split; [|done]. rewrite IH1. split.
    + intros Hall. constructor; [lia | done].
    + intros Hall. by apply Forall_cons in Hall as [_ ?].
Qed.

(** X8: [validateDims] accepts exactly the shapes of rank 1 to 6 whose
    dimensions all lie between 1 and 2147483647, and throws on every other
    shape. *)
Theorem validateDims_accepts (dims : list Z) :
  (ShapeUtil.validateDims dims = Ret () ↔
   1 ≤ len dims ≤ 6 ∧ Forall (λ d, 1 ≤ d ≤ 2147483647) dims) ∧
  (ShapeUtil.validateDims dims = Ret () ∨ throws (ShapeUtil.validateDims dims)).
Proof.
  unfold ShapeUtil.validateDims. pose proof (len_nonneg dims) as Hnn.
  destruct (validateDims_each_spec dims) as [Hiff Hor].
  rewrite Z.gtb_ltb.
  destruct (Z.ltb_spec (len dims) 0), (Z.ltb_spec 6 (len dims)); simpl; try lia.
  - split; [split; [done | lia] | right; by eexists].
  - destruct (Z.eqb_spec (len dims) 0).
    + split; [split; [done | lia] | right; by eexists].
    + split; [|done]. rewrite Hiff. split; [intros ?; split; [lia | done] | by intros [_ ?]].
Qed.

Lemma areEqual_every_spec (shape2 shape1 : list Z) (i : nat) :
  ShapeUtil.areEqual_every shape2 (Z.of_nat i) shape1 = true ↔
  take (length shape1) (drop i shape2) = shape1.
Proof.
  revert i. induction shape1 as [|v rest IH]; intros i; simpl; [done|].
  rewrite get_of_nat. destruct (shape2 !! i) as [w|] eqn:Hw.
  - rewrite (drop_S _ _ _ Hw). simpl.
    replace (Z.of_nat i + 1) with (Z.of_nat (S i)) by lia.
    rewrite andb_true_iff, IH, Z.eqb_eq. split.
    + by intros [-> ->].
    + intros [= -> Hrest]. by rewrite Hrest.
  - apply lookup_ge_None in Hw. rewrite drop_ge by done. simpl. done.
Qed.

(** X9: [areEqual] decides the equality of two shapes. *)
Theorem areEqual_eq (shape1 shape2 : list Z) :
  ShapeUtil.areEqual shape1 shape2 = true ↔ shape1 = shape2.
Proof.
  unfold ShapeUtil.areEqual.
  destruct (Z.eqb_spec (len shape1) (len shape2)) as [Hlen|Hlen]; simpl.
  - change 0 with (Z.of_nat 0). rewrite areEqual_every_spec, drop_0.
    unfold len in Hlen. rewrite take_ge by lia. split; congruence.
  - split; [done | intros ->; done].
Qed.

Lemma validateEqualDims_inner_spec (baseDims dims : list Z) (n : nat) (j : Z) :
  (ShapeUtil.validateEqualDims_inner baseDims dims n j = Ret () ↔
   ∀ k, j ≤ k < j + Z.of_nat n → get_in baseDims k = get_in dims k) ∧
  (ShapeUtil.validateEqualDims_inner baseDims dims n j = Ret () ∨
   throws (ShapeUtil.validateEqualDims_inner baseDims dims n j)).
Proof.
  revert j. induction n as [|n IH]; intros j; simpl.
  - split; [split; [intros; lia | done] | by left].
  - destruct (IH (j + 1)) as [IH1 IH2].
    destruct (Z.eqb_spec (get_in baseDims j) (get_in dims j)) as [Heq|Hne]; simpl.
    + split; [|done]. rewrite IH1. split; intros Hall k Hk.
      * destruct (decide (k = j)) as [->|]; [done | apply Hall; lia].
      * apply Hall. lia.
    + split; [split; [done | intros Hall; destruct Hne; apply Hall; lia]
             | right; by eexists].
Qed.

Lemma validateEqualDims_loop_spec (dimsArray : list (list Z)) (baseDims : list Z)
    (n i : nat) :
  (i + n = length dimsArray)%nat →
  (ShapeUtil.validateEqualDims_loop dimsArray baseDims n (Z.of_nat i) = Ret () ↔
   Forall (eq baseDims) (drop i dimsArray)) ∧
  (ShapeUtil.validateEqualDims_loop dimsArray baseDims n (Z.of_nat i) = Ret () ∨
   throws (ShapeUtil.validateEqualDims_loop dimsArray baseDims n (Z.of_nat i))).
Proof.
  revert i. induction n as [|n IH]; intros i Hn; simpl.
  - rewrite drop_ge by lia. split; [done | by left].
  - rewrite get_of_nat.
    destruct (lookup_lt_is_Some_2 dimsArray i ltac:(lia)) as [dims Hd].
    rewrite Hd, (drop_S _ _ _ Hd). simpl.
    replace (Z.of_nat i + 1) with (Z.of_nat (S i)) by lia.
    destruct (IH (S i) ltac:(lia)) as [IH1 IH2].
    destruct (Z.eqb_spec (len dims) (len baseDims)) as [Hlen|Hlen]; simpl.
    + destruct (validateEqualDims_inner_spec baseDims dims (Z.to_nat (len baseDims)) 0)
        as [Hin1 Hin2].
      destruct (ShapeUtil.validateEqualDims_inner _ _ _ _) as [[]|msg|] eqn:Hinner; simpl.
      * assert (baseDims = dims) as <-.
        { apply array_eq; [done|]. intros k Hk.
          rewrite !get_get_in by lia. f_equal. apply Hin1; [done | lia]. }
        split; [|done]. rewrite IH1. split; [by constructor|].
        intros Hall. by apply Forall_cons in Hall as [_ ?].
      * split; [|right; by eexists]. split; [done|].
        intros Hall. apply Forall_cons in Hall as [<- _].
        assert (@Throw () msg = Ret ()) by (by apply Hin1). done.
      * destruct Hin2 as [|[? ?]]; done.
    + split; [|right; by eexists]. split; [done|].
      intros Hall. apply Forall_cons in Hall as [<- _]. done.
Qed.

(** X10: [validateEqualDims] returns exactly when it is given at least two
    shapes that all equal the first one, and throws otherwise. *)
Theorem validateEqualDims_accepts (dimsArray : list (list Z)) :
  (ShapeUtil.validateEqualDims dimsArray = Ret () ↔
   ∃ baseDims rest,
     dimsArray = baseDims :: rest ∧ rest ≠ [] ∧ Forall (eq baseDims) rest) ∧
  (ShapeUtil.validateEqualDims dimsArray = Ret () ∨
   throws (ShapeUtil.validateEqualDims dimsArray)).
Proof.
  unfold ShapeUtil.validateEqualDims.
  destruct (Z.ltb_spec (len dimsArray) 2) as [Hlt|Hge].
  - split; [|right; by eexists]. split; [done|].
    intros (baseDims & rest & -> & Hne & _). destruct rest; [done|].
    unfold len in Hlt. simpl in Hlt. lia.
  - destruct dimsArray as [|baseDims rest]; [unfold len in Hge; simpl in Hge; lia|].
    change (default [] (get (baseDims :: rest) 0)) with baseDims.
    change 1 with (Z.of_nat 1).
    destruct (validateEqualDims_loop_spec (baseDims :: rest) baseDims
                (Z.to_nat (len (baseDims :: rest) - Z.of_nat 1)) 1) as [H1 H2].
    { unfold len. simpl. lia. }
    split; [|done]. rewrite H1. simpl. rewrite drop_0. split.
    + intros Hall. exists baseDims, rest. split; [done|]. split; [|done].
      destruct rest; [unfold len in Hge; simpl in Hge; lia | done].
    + by intros (? & ? & [= <- <-] & _ & ?).
Qed.

Lemma validateDims_accepts_witness :
  ShapeUtil.validateDims [1; 3; 416; 416] = Ret () ∧
  throws (ShapeUtil.validateDims []).
Proof.
  pose proof (validateDims_accepts [1; 3; 416; 416]) as [Hiff _].
  pose proof (validateDims_accepts []) as [Hnil [Hret|Hthrow]].
  - split; [|apply Hnil in Hret as [Hlen _]; unfold len in Hlen; simpl in Hlen; lia].
    apply Hiff. split; [unfold len; simpl; lia|].
    repeat (constructor; [lia|]). constructor.
  - split; [|done]. apply Hiff. split; [unfold len; simpl; lia|].
    repeat (constructor; [lia|]). constructor.
Defined.

Lemma areEqual_eq_witness : ShapeUtil.areEqual [1; 3; 4] [1; 3; 4] = true.
Proof. apply (areEqual_eq [1; 3; 4] [1; 3; 4]). reflexivity. Defined.

Lemma validateEqualDims_accepts_witness :
  ShapeUtil.validateEqualDims [[2; 3]; [2; 3]; [2; 3]] = Ret ().
Proof.
  apply (validateEqualDims_accepts [[2; 3]; [2; 3]; [2; 3]]).
  exists [2; 3], [[2; 3]; [2; 3]]. split; [reflexivity|]. split; [discriminate|].
  repeat (constructor; [reflexivity|]). constructor.
Defined.

(** ** ShapeUtil.sortBasedOnPerm *)

Lemma getSizeFromDimensionRange_loop_error (dims : list Z) (n i : nat)
    (size : option Z) :
  (i + n ≤ length dims)%nat →
  Exists (λ d, d ≤ 0) (take n (drop i dims)) →
  ShapeUtil.getSizeFromDimensionRange_loop dims n (Z.of_nat i) size = Throw size_error.
Proof.
  revert i size. induction n as [|n IH]; intros i size Hlen Hex; simpl.
  - by apply Exists_nil in Hex.
  - rewrite get_of_nat.
    destruct (lookup_lt_is_Some_2 dims i ltac:(lia)) as [d Hd].
    rewrite Hd. rewrite (drop_S _ _ _ Hd) in Hex. simpl in Hex.
    destruct (Z.leb_spec d 0); [done|].
    apply Exists_cons in Hex as [Hd0|Hex]; [lia|].
    replace (Z.of_nat i + 1) with (Z.of_nat (S i)) by lia.
    apply IH; [lia | done].
Qed.

(** [size] in closed form, for every shape. *)
Lemma size_closed_form (dims : list Z) :
  ShapeUtil.size dims =
  if decide (Forall (λ d, 0 < d) dims) then Ret (product dims) else Throw size_error.
Proof.
  destruct (decide _) as [Hpos|Hneg]; [by apply size_of_positive|].
  apply not_Forall_Exists in Hneg; [|apply _].
  unfold ShapeUtil.size, ShapeUtil.getSizeFromDimensionRange.
  replace (Z.to_nat (len dims - 0)) with (length dims) by (unfold len; lia).
  change 0 with (Z.of_nat 0).
  apply getSizeFromDimensionRange_loop_error; [simpl; lia|].
  rewrite drop_0, firstn_all.
  eapply Exists_impl; [exact Hneg|]. simpl. intros d Hd. lia.
Qed.

Lemma product_Permutation (l k : list Z) : l ≡ₚ k → product l = product k.
Proof.
  unfold product. induction 1 as [|x l k _ IH|x y l|l k m _ IH1 _ IH2]; simpl;
    [done | by rewrite IH | lia | by rewrite IH1].
Qed.

Lemma size_Permutation (l k : list Z) :
  l ≡ₚ k → ShapeUtil.size l = ShapeUtil.size k.
Proof.
  intros Hperm. rewrite !size_closed_form.
  destruct (decide (Forall _ l)) as [Hl|Hl], (decide (Forall _ k)) as [Hk|Hk].
  - by rewrite (product_Permutation l k).
  - destruct Hk. by rewrite <- Hperm.
  - destruct Hl. by rewrite Hperm.
  - done.
Qed.

Lemma mapM_get_in_range (a : list Z) (perm : list Z) :
  Forall (λ v, 0 ≤ v < len a) perm →
  mapM (get a) perm = Some (get_in a <$> perm).
Proof.
  induction 1 as [|v perm Hv _ IH]; [done|].
  simpl. rewrite (get_get_in a v Hv). simpl. rewrite IH. done.
Qed.

Lemma fmap_get_in_seqZ (a : list Z) : get_in a <$> seqZ 0 (len a) = a.
Proof.
  apply list_eq. intros k. rewrite list_lookup_fmap.
  destruct (decide (k < length a)%nat) as [Hk|Hk].
  - rewrite lookup_seqZ_lt by (unfold len; lia).
    destruct (lookup_lt_is_Some_2 a k Hk) as [x Hx].
    rewrite Hx. change (0 + Z.of_nat k) with (Z.of_nat k).
    cbn [fmap option_fmap option_map]. f_equal. by apply get_in_of_nat.
  - rewrite lookup_seqZ_ge by (unfold len; lia). simpl.
    symmetry. apply lookup_ge_None. lia.
Qed.

(** X11: when [perm] is a permutation of the indices 0 .. rank-1,
    [sortBasedOnPerm] returns a rearrangement of the shape; when the
    product of the dimensions is at most 2^53, the rearrangement has the
    same [size]. *)
Theorem sortBasedOnPerm_permutation (a perm : list Z) :
  perm ≡ₚ seqZ 0 (len a) →
  ∃ sorted,
    ShapeUtil.sortBasedOnPerm a (Some perm) = Ret sorted ∧
    sorted ≡ₚ a ∧
    (product a ≤ 2 ^ 53 → ShapeUtil.size sorted = ShapeUtil.size a).
Proof.
  intros Hperm. exists (get_in a <$> perm).
  assert (Hsorted : get_in a <$> perm ≡ₚ a).
  { rewrite Hperm. by rewrite fmap_get_in_seqZ. }
  split; [|split; [done | intros _; by apply size_Permutation]].
  unfold ShapeUtil.sortBasedOnPerm. rewrite mapM_get_in_range; [done|].
  rewrite Hperm. apply Forall_forall. intros v Hv.
  apply elem_of_seqZ in Hv. lia.
Qed.

Lemma sortBasedOnPerm_permutation_witness :
  ∃ sorted,
    ShapeUtil.sortBasedOnPerm [5; 6; 7] (Some [2; 0; 1]) = Ret sorted ∧
    sorted ≡ₚ [5; 6; 7] ∧
    ShapeUtil.size sorted = ShapeUtil.size [5; 6; 7].
Proof.
  destruct (sortBasedOnPerm_permutation [5; 6; 7] [2; 0; 1])
    as (sorted & Hrun & Hperm & Hsize).
  - change (seqZ 0 (len [5; 6; 7])) with [0; 1; 2].
    exact (Permutation_cons_append [0; 1] 2).
  - exists sorted. split; [exact Hrun|]. split; [exact Hperm|].
    apply Hsize. by apply Z.leb_le.
Defined.

(** X12: without [perm], [sortBasedOnPerm] reverses the shape: it returns
    what the permutation rank-1, ..., 0 returns, and applied to its own
    result it gives the shape back. *)
Theorem sortBasedOnPerm_default (a : list Z) :
  ShapeUtil.sortBasedOnPerm a None =
    ShapeUtil.sortBasedOnPerm a (Some (reverse (seqZ 0 (len a)))) ∧
  (ShapeUtil.sortBasedOnPerm a None ≫= λ b, ShapeUtil.sortBasedOnPerm b None) = Ret a.
Proof.
  split.
  - unfold ShapeUtil.sortBasedOnPerm. rewrite mapM_get_in_range.
    + by rewrite fmap_reverse, fmap_get_in_seqZ.
    + apply Forall_forall. intros v Hv.
      apply elem_of_reverse, elem_of_seqZ in Hv. lia.
  - simpl. by rewrite reverse_involutive.
Qed.

(** ** ShapeUtil.splitDimsIntoTwo *)

Lemma splitDimsIntoTwo_loop_past (dims : list Z) (pick : Z) (n i : nat)
    (picked remnants : list Z) :
  (i + n = length dims)%nat → pick < Z.of_nat i ∨ len dims ≤ pick →
  ShapeUtil.splitDimsIntoTwo_loop dims pick n (Z.of_nat i) picked remnants =
  (picked, remnants ++ drop i dims).
Proof.
  revert i remnants. induction n as [|n IH]; intros i remnants Hn Hpick; simpl.
  - by rewrite drop_ge, app_nil_r by lia.
  - destruct (Z.eqb_spec (Z.of_nat i) pick); [unfold len in Hpick; lia|].
    destruct (lookup_lt_is_Some_2 dims i ltac:(lia)) as [x Hx].
    rewrite (get_in_of_nat _ _ _ Hx).
    replace (Z.of_nat i + 1) with (Z.of_nat (S i)) by lia.
    rewrite IH by lia. by rewrite (drop_S _ _ _ Hx), <- app_assoc.
Qed.

Lemma splitDimsIntoTwo_loop_before (dims : list Z) (p : nat) (d : Z) (n i : nat)
    (picked remnants : list Z) :
  (i + n = length dims)%nat → (i ≤ p)%nat → dims !! p = Some d →
  ShapeUtil.splitDimsIntoTwo_loop dims (Z.of_nat p) n (Z.of_nat i) picked remnants =
  (picked ++ [d], remnants ++ take (p - i) (drop i dims) ++ drop (S p) dims).
Proof.
  intros Hn Hi Hd. pose proof (lookup_lt_Some _ _ _ Hd) as Hp.
  revert i remnants Hn Hi. induction n as [|n IH]; intros i remnants Hn Hi; simpl;
    [lia|].
  destruct (lookup_lt_is_Some_2 dims i ltac:(lia)) as [x Hx].
  rewrite (get_in_of_nat _ _ _ Hx).
  replace (Z.of_nat i + 1) with (Z.of_nat (S i)) by lia.
  destruct (Z.eqb_spec (Z.of_nat i) (Z.of_nat p)) as [Heq|Hne].
  - assert (i = p) as -> by lia. assert (x = d) as -> by congruence.
    rewrite splitDimsIntoTwo_loop_past by lia.
    by rewrite Nat.sub_diag.
  - rewrite IH by lia. f_equal.
    rewrite (drop_S _ _ _ Hx). replace (p - i)%nat with (S (p - S i)) by lia.
    simpl. by rewrite <- app_assoc.
Qed.

(** X13: [splitDimsIntoTwo] with an axis inside the shape returns the
    dimension of the axis alone and the shape without that dimension, in
    order; with an axis outside it returns nothing picked and the whole
    shape.  Either way the two results multiply to the number of elements
    of the shape. *)
Theorem splitDimsIntoTwo_spec (dims : list Z) (pick : Z) :
  ShapeUtil.splitDimsIntoTwo dims pick =
    match get dims pick with
    | Some d => ([d], delete (Z.to_nat pick) dims)
    | None => ([], dims)
    end ∧
  product (ShapeUtil.splitDimsIntoTwo dims pick).1 *
    product (ShapeUtil.splitDimsIntoTwo dims pick).2 = product dims.
Proof.
  assert (Hsplit : ShapeUtil.splitDimsIntoTwo dims pick =
    match get dims pick with
    | Some d => ([d], delete (Z.to_nat pick) dims)
    | None => ([], dims)
    end).
  { unfold ShapeUtil.splitDimsIntoTwo.
    replace (Z.to_nat (len dims)) with (length dims) by (unfold len; lia).
    change 0 with (Z.of_nat 0).
    destruct (get dims pick) as [d|] eqn:Hget.
    - apply get_Some_nat in Hget as [Hpick Hd].
      rewrite <- (Z2Nat.id pick) at 1 by lia.
      rewrite (splitDimsIntoTwo_loop_before dims _ d) by (done || simpl; lia).
      by rewrite drop_0, Nat.sub_0_r, delete_take_drop.
    - apply get_None_iff in Hget.
      destruct Hget as [Hneg|Hbig].
      + rewrite splitDimsIntoTwo_loop_past by (simpl; lia). by rewrite drop_0.
      + rewrite splitDimsIntoTwo_loop_past by (simpl; lia). by rewrite drop_0. }
  split; [done|]. rewrite Hsplit.
  destruct (get dims pick) as [d|] eqn:Hget; simpl.
  - apply get_Some_nat in Hget as [_ Hd].
    assert (Hprod : product dims =
              product (take (Z.to_nat pick) dims)
              * (d * product (drop (S (Z.to_nat pick)) dims))).
    { rewrite <- (take_drop_middle dims _ d Hd) at 1. by rewrite product_app. }
    rewrite Hprod, delete_take_drop, product_app.
    change (product [d]) with (d * 1). lia.
  - change (product []) with 1. lia.
Qed.

Lemma splitDimsIntoTwo_spec_witness :
  ShapeUtil.splitDimsIntoTwo [2; 3; 4] 1 = ([3], [2; 4]).
Proof. apply (splitDimsIntoTwo_spec [2; 3; 4] 1). Defined.

(** * Further properties of BroadcastUtil *)

(** The loop of [calcShape] does not depend on the order of the operands. *)
Lemma calcShape_loop_comm (adims bdims : list Z) (crank : Z) (n : nat) (i : Z)
    (cdims : list Z) :
  BroadcastUtil.calcShape_loop adims bdims crank n i cdims =
  BroadcastUtil.calcShape_loop bdims adims crank n i cdims.
Proof.
  revert i cdims. induction n as [|n IH]; intros i cdims; simpl; [done|].
  fold (aligned adims i) (aligned bdims i).
  rewrite (Z.eqb_sym (aligned adims i)), (Z.max_comm (aligned adims i)), IH.
  by destruct (negb _), (aligned adims i >? 1), (aligned bdims i >? 1).
Qed.

(** X14: the broadcast shape of two operands does not depend on their
    order: [calcShape a b] and [calcShape b a] (isMatMul false) are the same
    shape, or both undefined. *)
Theorem calcShape_comm (adims bdims : list Z) :
  BroadcastUtil.calcShape adims bdims false =
  BroadcastUtil.calcShape bdims adims false.
Proof.
  unfold BroadcastUtil.calcShape.
  by rewrite calcShape_loop_comm, (Z.max_comm (len adims)).
Qed.

(** The positions that the loop has left behind are not written again. *)
Lemma calcShape_loop_frame (adims bdims : list Z) (crank : Z) (n : nat) (i : Z)
    (cdims c : list Z) :
  BroadcastUtil.calcShape_loop adims bdims crank n i cdims = Some c →
  ∀ k, crank - i < k → get c k = get cdims k.
Proof.
  revert i cdims. induction n as [|n IH]; intros i cdims; simpl.
  - by intros [= <-].
  - destruct (_ && _); [done|]. intros Hloop k Hk.
    rewrite (IH _ _ Hloop) by lia. apply get_set_in_ne. lia.
Qed.

Lemma calcShape_loop_None (adims bdims : list Z) (crank : Z) (n : nat) (i : Z)
    (cdims : list Z) :
  BroadcastUtil.calcShape_loop adims bdims crank n i cdims = None ↔
  ∃ j, i ≤ j < i + Z.of_nat n ∧ incompatible adims bdims j.
Proof.
  revert i cdims. induction n as [|n IH]; intros i cdims; simpl.
  - split; [done | intros (j & Hj & _); lia].
  - fold (aligned adims i) (aligned bdims i).
    destruct (Z.eqb_spec (aligned adims i) (aligned bdims i)) as [Heq|Hne];
      rewrite !Z.gtb_ltb;
      destruct (Z.ltb_spec 1 (aligned adims i)), (Z.ltb_spec 1 (aligned bdims i));
      cbn [negb andb]; rewrite ?IH.
    1-4,6-8: split;
      [ intros (j & Hj & Hbad); exists j; split; [lia | done]
      | intros (j & Hj & Hbad); exists j; split; [|done];
        destruct (decide (j = i)) as [->|]; [destruct Hbad as (? & ? & ?); lia | lia] ].
    split; [intros _ | done]. exists i. split; [lia|]. done.
Qed.

(** X15: [calcShape] (isMatMul false) is undefined exactly when, at some
    distance from the right within the larger rank, the two dimensions
    differ and both exceed 1; a missing dimension counts as 1. *)
Theorem calcShape_undefined (adims bdims : list Z) :
  BroadcastUtil.calcShape adims bdims false = None ↔
  ∃ j, 1 ≤ j ≤ Z.max (len adims) (len bdims) ∧ incompatible adims bdims j.
Proof.
  unfold BroadcastUtil.calcShape. rewrite calcShape_loop_None.
  pose proof (len_nonneg adims). pose proof (len_nonneg bdims).
  split; intros (j & Hj & Hbad); exists j; (split; [lia | done]).
Qed.

Lemma calcShape_undefined_witness :
  BroadcastUtil.calcShape [3; 2] [4] false = None.
Proof.
  apply (calcShape_undefined [3; 2] [4]). exists 1.
  split; [unfold len; simpl; lia|]. unfold incompatible. vm_compute.
  repeat split; congruence.
Defined.

Lemma aligned_in_range (dims : list Z) (j : Z) :
  1 ≤ j ≤ len dims → aligned dims j = get_in dims (len dims - j).
Proof.
  intros Hj. unfold aligned. destruct (Z.ltb_spec (len dims - j) 0); [lia | done].
Qed.

(** X16: a shape broadcasts with itself to itself, whatever its dimensions. *)
Theorem calcShape_same (dims : list Z) :
  BroadcastUtil.calcShape dims dims false = Some dims.
Proof.
  destruct (BroadcastUtil.calcShape dims dims false) as [c|] eqn:Hc.
  - f_equal. unfold BroadcastUtil.calcShape in Hc.
    pose proof (len_nonneg dims) as Hnn. rewrite Z.max_id in Hc.
    apply calcShape_loop_spec in Hc as [Hlen Hall];
      [| lia | lia | apply len_new_Array; lia].
    apply array_eq; [done|]. intros k Hk.
    destruct (Hall (len dims - k) ltac:(lia)) as [_ Hmax].
    rewrite Z.max_id, aligned_in_range in Hmax by lia.
    replace (len dims - (len dims - k)) with k in Hmax by lia.
    rewrite (get_get_in c), (get_get_in dims) by lia. by f_equal.
  - apply calcShape_undefined in Hc as (j & _ & Hne & _). done.
Qed.

(** X17: for two shapes of positive dimensions, a result of [calcShape]
    (isMatMul false) has the larger of the two ranks and positive
    dimensions, and the second operand broadcasts into it as well. *)
Theorem calcShape_result (adims bdims c : list Z) :
  Forall (λ d, 0 < d) adims → Forall (λ d, 0 < d) bdims →
  BroadcastUtil.calcShape adims bdims false = Some c →
  len c = Z.max (len adims) (len bdims) ∧
  Forall (λ d, 0 < d) c ∧
  BroadcastUtil.isValidBroadcast bdims c = true.
Proof.
  intros Ha Hb Hc. unfold BroadcastUtil.calcShape in Hc.
  pose proof (len_nonneg adims). pose proof (len_nonneg bdims).
  apply calcShape_loop_spec in Hc as [Hlen Hall];
    [| lia | lia | apply len_new_Array; lia].
  split; [done|]. split.
  - apply Forall_lookup. intros k d Hk.
    pose proof (lookup_lt_Some _ _ _ Hk) as Hklt.
    destruct (Hall (len c - Z.of_nat k) ltac:(unfold len in *; lia)) as [_ Hmax].
    replace (Z.max (len adims) (len bdims) - (len c - Z.of_nat k))
      with (Z.of_nat k) in Hmax by lia.
    rewrite (get_in_of_nat _ _ _ Hk) in Hmax.
    pose proof (aligned_pos adims (len c - Z.of_nat k) Ha ltac:(unfold len in *; lia)).
    lia.
  - apply isValidBroadcast_spec. split; [lia|]. intros i Hi.
    destruct (Hall i ltac:(lia)) as [Hok Hmax].
    pose proof (aligned_pos adims i Ha ltac:(lia)).
    pose proof (aligned_pos bdims i Hb ltac:(lia)).
    rewrite Hlen, Hmax, <- aligned_in_range by lia. unfold incompatible in *. lia.
Qed.

Lemma calcShape_result_witness :
  len [3; 4; 5] = Z.max (len [3; 1; 5]) (len [4; 1]) ∧
  Forall (λ d, 0 < d) [3; 4; 5] ∧
  BroadcastUtil.isValidBroadcast [4; 1] [3; 4; 5] = true.
Proof.
  apply (calcShape_result [3; 1; 5] [4; 1] [3; 4; 5]).
  - repeat (constructor; [lia|]). constructor.
  - repeat (constructor; [lia|]). constructor.
  - reflexivity.
Defined.

(** X18: unidirectional broadcasting is a preorder: every shape broadcasts
    into itself, and a shape that broadcasts into a second one broadcasts
    into every shape that the second one broadcasts into. *)
Theorem isValidBroadcast_preorder (shape middle finalShape : list Z) :
  BroadcastUtil.isValidBroadcast shape shape = true ∧
  (BroadcastUtil.isValidBroadcast shape middle = true →
   BroadcastUtil.isValidBroadcast middle finalShape = true →
   BroadcastUtil.isValidBroadcast shape finalShape = true).
Proof.
  split.
  - apply isValidBroadcast_spec. split; [lia|]. intros i Hi. by right.
  - rewrite !isValidBroadcast_spec. intros [Hlen1 H1] [Hlen2 H2].
    split; [lia|]. intros i Hi.
    destruct (H1 i Hi) as [?|Heq1]; [by left|].
    destruct (H2 i ltac:(lia)) as [Hone|Heq2].
    + left. congruence.
    + right. congruence.
Qed.

Lemma isValidBroadcast_preorder_witness :
  BroadcastUtil.isValidBroadcast [4; 1] [2; 3; 4; 5] = true.
Proof.
  apply (isValidBroadcast_preorder [4; 1] [1; 4; 5] [2; 3; 4; 5]); reflexivity.
Defined.

(** X19: with isMatMul, [calcShape] is undefined when an operand has rank
    below 2 or when the last dimension of the first differs from the
    last-but-one of the second; a result has the larger rank, ends with the
    rows of the first and the columns of the second operand, and its other
    dimensions are the broadcast of the batch dimensions. *)
Theorem calcShape_matmul (adims bdims : list Z) :
  ((len adims < 2 ∨ len bdims < 2 ∨
    get_in adims (len adims - 1) ≠ get_in bdims (len bdims - 2)) →
   BroadcastUtil.calcShape adims bdims true = None) ∧
  (∀ c, BroadcastUtil.calcShape adims bdims true = Some c →
     2 ≤ len adims ∧ 2 ≤ len bdims ∧
     get_in adims (len adims - 1) = get_in bdims (len bdims - 2) ∧
     len c = Z.max (len adims) (len bdims) ∧
     get_in c (len c - 2) = get_in adims (len adims - 2) ∧
     get_in c (len c - 1) = get_in bdims (len bdims - 1) ∧
     ∀ j, 3 ≤ j ≤ len c →
       ¬ incompatible adims bdims j ∧
       get_in c (len c - j) = Z.max (aligned adims j) (aligned bdims j)).
Proof.
  unfold BroadcastUtil.calcShape, BroadcastUtil.calcMatMulShape. simpl.
  set (crank := Z.max (len adims) (len bdims)).
  destruct (Z.ltb_spec (len adims) 2) as [Ha|Ha]; simpl.
  { split; [done | intros c [=]]. }
  destruct (Z.ltb_spec (len bdims) 2) as [Hb|Hb]; simpl.
  { split; [done | intros c [=]]. }
  destruct (Z.eqb_spec (get_in adims (len adims - 1)) (get_in bdims (len bdims - 2)))
    as [Hk|Hk]; simpl.
  2: { split; [done | intros c [=]]. }
  split; [lia|]. intros c Hc.
  assert (Hcrank : 2 ≤ crank) by lia.
  set (cdims0 := set_in (set_in (new_Array crank) (crank - 2) (get_in adims (len adims - 2)))
                   (crank - 1) (get_in bdims (len bdims - 1))) in Hc.
  assert (Hlen0 : len cdims0 = crank).
  { unfold cdims0. rewrite !len_set_in. apply len_new_Array. lia. }
  pose proof (calcShape_loop_frame _ _ _ _ _ _ _ Hc) as Hframe.
  apply calcShape_loop_spec in Hc as [Hlen Hall]; [| lia.. | done].
  rewrite Hlen. repeat split; try done.
  - apply get_in_get. rewrite Hframe by lia. unfold cdims0.
    rewrite get_set_in_ne by lia. apply get_set_in_eq.
    rewrite len_new_Array; lia.
  - apply get_in_get. rewrite Hframe by lia. unfold cdims0.
    apply get_set_in_eq. rewrite len_set_in, len_new_Array; lia.
  - by apply Hall.
  - by apply Hall.
Qed.

Lemma calcShape_matmul_witness :
  BroadcastUtil.calcShape [7; 2; 3] [5; 4] true = None ∧
  get_in [7; 2; 4] (len [7; 2; 4] - 2) = get_in [7; 2; 3] (len [7; 2; 3] - 2).
Proof.
  pose proof (calcShape_matmul [7; 2; 3] [5; 4]) as [Hnone _].
  pose proof (calcShape_matmul [7; 2; 3] [3; 4]) as [_ Hsome].
  split.
  - apply Hnone. right; right. vm_compute. discriminate.
  - apply (Hsome [7; 2; 4]). reflexivity.
Defined.

(** ** BroadcastUtil.index *)

Lemma index_loop_spec (indices shapeOrigin : list Z) (dimOffset : Z)
    (n : nat) (i : Z) (indicesOrigin : list Z) :
  0 ≤ i → 0 ≤ dimOffset →
  i + Z.of_nat n ≤ len shapeOrigin →
  dimOffset + len shapeOrigin ≤ len indices →
  len indicesOrigin = len shapeOrigin →
  (∀ k, 0 ≤ k < len shapeOrigin → get_in shapeOrigin k ≠ 0) →
  ∃ mapped,
    BroadcastUtil.index_loop indices shapeOrigin dimOffset n i indicesOrigin
      = Ret mapped ∧
    len mapped = len shapeOrigin ∧
    (∀ k, i ≤ k < i + Z.of_nat n →
       get_in mapped k = Z.rem (get_in indices (dimOffset + k)) (get_in shapeOrigin k)) ∧
    (∀ k, k < i ∨ i + Z.of_nat n ≤ k → get mapped k = get indicesOrigin k).
Proof.
  intros Hi Hoff. revert i indicesOrigin Hi.
  induction n as [|n IH]; intros i indicesOrigin Hi Hn Hlen Hio Hnz; simpl.
  - exists indicesOrigin. repeat split; first [done | intros; lia].
  - rewrite (get_get_in indices (dimOffset + i)), (get_get_in shapeOrigin i) by lia.
    destruct (Z.eqb_spec (get_in shapeOrigin i) 0) as [H0|_];
      [by apply Hnz in H0; [|lia]|].
    destruct (IH (i + 1)
                (set_in indicesOrigin i
                   (Z.rem (get_in indices (dimOffset + i)) (get_in shapeOrigin i))))
      as (mapped & Hloop & Hlenm & Hset & Hframe);
      [lia | lia | done | by rewrite len_set_in | done |].
    exists mapped. split; [done|]. split; [done|]. split.
    + intros k Hk. destruct (decide (k = i)) as [->|]; [|apply Hset; lia].
      apply get_in_get. rewrite Hframe by lia. apply get_set_in_eq. lia.
    + intros k Hk. rewrite Hframe by lia. apply get_set_in_ne. lia.
Qed.

(** X20: for a shape of positive dimensions that broadcasts into
    [finalShape] and an index in range of [finalShape], [index] (isMatMul
    false) returns an index in range of the shape: 0 on every dimension of
    size 1, and the index of the aligned result dimension elsewhere. *)
Theorem index_of_broadcast (indices shapeOrigin finalShape : list Z) :
  Forall (λ d, 0 < d) shapeOrigin →
  BroadcastUtil.isValidBroadcast shapeOrigin finalShape = true →
  Forall2 (λ x d, 0 ≤ x < d) indices finalShape →
  ∃ mapped,
    BroadcastUtil.index indices shapeOrigin false = Ret mapped ∧
    Forall2 (λ x d, 0 ≤ x < d) mapped shapeOrigin ∧
    ∀ k, 0 ≤ k < len shapeOrigin →
      get_in mapped k =
      if get_in shapeOrigin k =? 1 then 0
      else get_in indices (len indices - len shapeOrigin + k).
Proof.
  intros Hpos Hvalid Hidx.
  apply isValidBroadcast_spec in Hvalid as [Hrank Hdims].
  pose proof (Forall2_length _ _ _ Hidx) as Hleni.
  assert (Hlen : len indices = len finalShape) by (unfold len; lia).
  pose proof (len_nonneg shapeOrigin) as Hnn.
  unfold BroadcastUtil.index.
  remember (len indices - len shapeOrigin) as dimOffset eqn:HdimOffset.
  assert (Hslice : BroadcastUtil.slice_from indices dimOffset
                   = drop (Z.to_nat dimOffset) indices).
  { unfold BroadcastUtil.slice_from.
    destruct (Z.ltb_spec dimOffset 0); [lia|]. f_equal. lia. }
  rewrite Hslice.
  assert (Hlend : len (drop (Z.to_nat dimOffset) indices) = len shapeOrigin).
  { unfold len in *. rewrite length_drop. lia. }
  rewrite Hlend.
  destruct (index_loop_spec indices shapeOrigin dimOffset
              (Z.to_nat (len shapeOrigin)) 0 (drop (Z.to_nat dimOffset) indices))
    as (mapped & Hloop & Hlenm & Hset & _); [lia | lia | lia | lia | done | |].
  { intros k Hk.
    pose proof (get_in_Forall (λ d, 0 < d) shapeOrigin k Hpos Hk). simpl in *. lia. }
  exists mapped. split; [done|].
  assert (Hval : ∀ k, 0 ≤ k < len shapeOrigin →
    get_in mapped k =
      (if get_in shapeOrigin k =? 1 then 0 else get_in indices (dimOffset + k)) ∧
    0 ≤ get_in mapped k < get_in shapeOrigin k).
  { intros k Hk. rewrite Hset by lia.
    pose proof (get_in_Forall (λ d, 0 < d) shapeOrigin k Hpos Hk) as Hs. simpl in Hs.
    assert (Hx : 0 ≤ get_in indices (dimOffset + k) < get_in finalShape (dimOffset + k)).
    { pose proof (get_get_in indices (dimOffset + k) ltac:(lia)) as Hgi.
      pose proof (get_get_in finalShape (dimOffset + k) ltac:(lia)) as Hgf.
      apply get_Some_nat in Hgi as [_ Hgi]. apply get_Some_nat in Hgf as [_ Hgf].
      exact (Forall2_lookup_lr _ _ _ _ _ _ Hidx Hgi Hgf). }
    destruct (Z.eqb_spec (get_in shapeOrigin k) 1) as [H1|H1].
    - rewrite H1, Z.rem_1_r. lia.
    - destruct (Hdims (len shapeOrigin - k) ltac:(lia)) as [Hone|Heq];
        replace (len shapeOrigin - (len shapeOrigin - k)) with k in * by lia; [done|].
      replace (len finalShape - (len shapeOrigin - k)) with (dimOffset + k) in Heq
        by lia.
      rewrite Z.rem_small by lia. lia. }
  split.
  - apply Forall2_same_length_lookup_2; [unfold len in Hlenm; lia|].
    intros k x d Hx Hd.
    pose proof (lookup_lt_Some _ _ _ Hd) as Hk.
    destruct (Hval (Z.of_nat k) ltac:(unfold len; lia)) as [_ Hr].
    by rewrite (get_in_of_nat _ _ _ Hx), (get_in_of_nat _ _ _ Hd) in Hr.
  - intros k Hk. by apply Hval.
Qed.

Lemma index_of_broadcast_witness :
  ∃ mapped,
    BroadcastUtil.index [1; 2; 3] [3; 1] false = Ret mapped ∧
    Forall2 (λ x d, 0 ≤ x < d) mapped [3; 1] ∧
    ∀ k, 0 ≤ k < len [3; 1] →
      get_in mapped k =
      if get_in [3; 1] k =? 1 then 0
      else get_in [1; 2; 3] (len [1; 2; 3] - len [3; 1] + k).
Proof.
  apply (index_of_broadcast [1; 2; 3] [3; 1] [2; 3; 4]).
  - repeat (constructor; [lia|]). constructor.
  - reflexivity.
  - repeat (constructor; [lia|]). constructor.
Defined.

(** * Further properties of the buffer primitives *)

Lemma get_insert_eq {A} (a : list A) (i : Z) (v : A) :
  0 ≤ i < len a → get (<[Z.to_nat i := v]> a) i = Some v.
Proof.
  intros Hi. rewrite get_to_nat by lia. apply list_lookup_insert_eq.
  unfold len in Hi. lia.
Qed.

Lemma get_insert_ne {A} (a : list A) (i j : Z) (v : A) :
  0 ≤ i → i ≠ j → get (<[Z.to_nat i := v]> a) j = get a j.
Proof.
  intros Hi Hij. unfold get. destruct (Z.ltb_spec j 0); [done|].
  apply list_lookup_insert_ne. lia.
Qed.

Section BlockProperties.
Context {elt : Type} `{Elt elt}.


Lemma buffer_read_insert_eq (h : gmap loc (list elt)) (b : loc) (cur : list elt) (i : Z) :
  buffer_read (<[b := cur]> h) b i = get cur i.
Proof. unfold buffer_read. by rewrite lookup_insert_eq. Qed.


Lemma buffer_write_insert (h : gmap loc (list elt)) (b : loc) (cur : list elt)
    (i : Z) (y v : elt) :
  get cur i = Some y →
  buffer_write (<[b := cur]> h) b i v = Some (<[b := <[Z.to_nat i := v]> cur]> h).
Proof.
  intros Hy. unfold buffer_write. rewrite lookup_insert_eq. simpl.
  assert (0 ≤ i < len cur) as Hi.
  { destruct (decide (0 ≤ i < len cur)) as [|Hn]; [done|].
    assert (get cur i = None) by (apply get_None_iff; lia). congruence. }
  destruct (Z.leb_spec 0 i), (Z.ltb_spec i (len cur)); simpl; try lia.
  by rewrite insert_insert_eq.
Qed.





End BlockProperties.


Section SelfCopy.
Context {elt : Type} `{Elt elt}.

Lemma self_copy_source_step (targetIndex sourceIndex k : Z) :
  0 ≤ k →
  (sourceIndex + k < targetIndex ∨ targetIndex + k ≤ sourceIndex + k →
   self_copy_source targetIndex sourceIndex k = sourceIndex + k) ∧
  (targetIndex ≤ sourceIndex + k < targetIndex + k →
   0 ≤ sourceIndex + k - targetIndex < k ∧
   self_copy_source targetIndex sourceIndex k =
   self_copy_source targetIndex sourceIndex (sourceIndex + k - targetIndex)).
Proof.
  intros Hk. unfold self_copy_source.
  destruct (Z.leb_spec targetIndex sourceIndex) as [Hle|Hgt].
  - split; [done | lia].
  - split.
    + intros [Hlt|Hge]; [|lia]. rewrite Z.mod_small by lia. done.
    + intros Hin. split; [lia|].
      replace k with ((sourceIndex + k - targetIndex) + 1 * (targetIndex - sourceIndex))
        at 1 by lia.
      by rewrite Z_mod_plus_full.
Qed.

Lemma self_copy_loop (h : gmap loc (list elt)) (buffer : loc) (buf : list elt)
    (targetIndex sourceIndex blockSize : Z) :
  0 ≤ targetIndex → 0 ≤ sourceIndex →
  targetIndex + blockSize ≤ len buf → sourceIndex + blockSize ≤ len buf →
  ∀ (n k0 : nat) (cur : list elt),
    Z.of_nat k0 + Z.of_nat n = Z.max 0 blockSize →
    len cur = len buf →
    (∀ k, 0 ≤ k < Z.of_nat k0 →
       get cur (targetIndex + k) = get buf (self_copy_source targetIndex sourceIndex k)) →
    (∀ j, j < targetIndex ∨ targetIndex + Z.of_nat k0 ≤ j → get cur j = get buf j) →
    ∃ buf',
      for_offset (λ offset h,
          x ← buffer_read h buffer (sourceIndex + offset);
          buffer_write h buffer (targetIndex + offset) x)
        n (Z.of_nat k0) (<[buffer := cur]> h) = (Ret (), <[buffer := buf']> h) ∧
      len buf' = len buf ∧
      (∀ k, 0 ≤ k < blockSize →
         get buf' (targetIndex + k) = get buf (self_copy_source targetIndex sourceIndex k)) ∧
      (∀ j, j < targetIndex ∨ targetIndex + blockSize ≤ j → get buf' j = get buf j).
Proof.
  intros Hti Hsi Htb Hsb.
  induction n as [|n IH]; intros k0 cur Hn Hlen Hdone Hrest; simpl.
  - exists cur. split; [done|]. split; [done|]. split.
    + intros k Hk. apply Hdone. lia.
    + intros j Hj. apply Hrest. lia.
  - rewrite buffer_read_insert_eq.
    destruct (get_in_range cur (sourceIndex + Z.of_nat k0) ltac:(lia)) as [x Hx].
    destruct (get_in_range cur (targetIndex + Z.of_nat k0) ltac:(lia)) as [y Hy].
    rewrite Hx. simpl. rewrite (buffer_write_insert h buffer cur _ y) by done.
    replace (Z.of_nat k0 + 1) with (Z.of_nat (S k0)) by lia.
    apply IH; [lia | unfold len in *; rewrite length_insert; lia | |].
    + intros k Hk. destruct (decide (k = Z.of_nat k0)) as [->|].
      * rewrite get_insert_eq by lia. rewrite <- Hx.
        destruct (self_copy_source_step targetIndex sourceIndex (Z.of_nat k0) ltac:(lia))
          as [Hout Hin].
        destruct (decide (targetIndex ≤ sourceIndex + Z.of_nat k0
                          < targetIndex + Z.of_nat k0)) as [Hmid|Hmid].
        -- destruct (Hin Hmid) as [Hrange ->].
           rewrite <- Hdone by lia. f_equal. lia.
        -- rewrite Hout by lia. apply Hrest. lia.
      * rewrite get_insert_ne by lia. apply Hdone. lia.
    + intros j Hj. rewrite get_insert_ne by lia. apply Hrest. lia.
Qed.

(** X22: when target and source are the same buffer, [arrayCopyHelper]
    towards lower or equal indices moves the block as it was; towards
    higher indices it reads elements that it has already overwritten, so
    that the block ends up repeating its first [targetIndex - sourceIndex]
    source elements.  Elements outside the target block keep their value. *)
Theorem arrayCopyHelper_same_buffer (h : gmap loc (list elt)) (buffer : loc)
    (buf : list elt) (targetIndex sourceIndex blockSize : Z) :
  h !! buffer = Some buf →
  0 ≤ targetIndex < len buf → 0 ≤ sourceIndex < len buf →
  targetIndex + blockSize ≤ len buf → sourceIndex + blockSize ≤ len buf →
  ∃ buf',
    arrayCopyHelper buffer buffer targetIndex sourceIndex blockSize h
      = (Ret (), <[buffer := buf']> h) ∧
    len buf' = len buf ∧
    (∀ k, 0 ≤ k < blockSize →
       get buf' (targetIndex + k) = get buf (self_copy_source targetIndex sourceIndex k)) ∧
    (∀ j, j < targetIndex ∨ targetIndex + blockSize ≤ j → get buf' j = get buf j).
Proof.
  intros Hb Hti Hsi Htb Hsb. unfold arrayCopyHelper. rewrite Hb.
  repeat match goal with
  | |- context [?x <? ?y] => destruct (Z.ltb_spec x y); [lia|]; simpl
  | |- context [?x >=? ?y] =>
      rewrite (Z.geb_leb x y); destruct (Z.leb_spec y x); [lia|]; simpl
  | |- context [?x >? ?y] =>
      rewrite (Z.gtb_ltb x y); destruct (Z.ltb_spec y x); [lia|]; simpl
  end.
  destruct (self_copy_loop h buffer buf targetIndex sourceIndex blockSize
              ltac:(lia) ltac:(lia) Htb Hsb (Z.to_nat blockSize) 0%nat buf)
    as (buf' & Hrun & Hrest); [lia | done | intros; lia | done |].
  rewrite insert_id in Hrun by done. by exists buf'.
Qed.

End SelfCopy.

Lemma arrayCopyHelper_same_buffer_witness :
  ∃ buf',
    arrayCopyHelper 0%nat 0%nat 1 0 2 store_3_2 = (Ret (), <[0%nat := buf']> store_3_2) ∧
    len buf' = len [10; 20; 30] ∧
    (∀ k, 0 ≤ k < 2 →
       get buf' (1 + k) = get [10; 20; 30] (self_copy_source 1 0 k)) ∧
    (∀ j, j < 1 ∨ 1 + 2 ≤ j → get buf' j = get [10; 20; 30] j).
Proof.
  apply (arrayCopyHelper_same_buffer store_3_2 0%nat [10; 20; 30] 1 0 2);
    try reflexivity; unfold len; simpl; lia.
Defined.

(** * Further properties of SplitUtil *)






(** * Further properties of PoolConvUtil *)



Lemma computeShapeHelper_global_app (n : nat) (outputDims : list Q) :
  PoolConvUtil.computeShapeHelper_global n outputDims = outputDims ++ replicate n 1%Q.
Proof.
  revert outputDims. induction n as [|n IH]; intros outputDims; simpl.
  - by rewrite app_nil_r.
  - by rewrite IH, <- app_assoc.
Qed.

(** X24: for a global operator and an input of rank at least 2,
    [computePoolOutputShape] returns the batch size and the channels
    followed by one 1 per spatial axis, and leaves [pads] alone, whatever
    the strides, the kernel shape and the autoPad string. *)
Theorem computePoolOutputShape_global (batch channels : Q) (spatial : list Q)
    (strides kernelShape pads : list Q) (autoPad : option string) :
  PoolConvUtil.computePoolOutputShape true (batch :: channels :: spatial)
    strides kernelShape autoPad pads =
  (Ret (batch :: channels :: replicate (length spatial) 1%Q), pads).
Proof.
  unfold PoolConvUtil.computePoolOutputShape.
  destruct (Z.leb_spec (len (batch :: channels :: spatial)) 0) as [H0|_];
    [unfold len in H0; simpl in H0; lia|].
  unfold mbind, PoolConvUtil.M_bind, PoolConvUtil.number, mret, PoolConvUtil.M_ret.
  change (get (batch :: channels :: spatial) 0) with (Some batch).
  change (get (batch :: channels :: spatial) 1) with (Some channels).
  cbv beta iota. unfold PoolConvUtil.computeShapeHelper.
  replace (Z.to_nat (len (batch :: channels :: spatial) - 2)) with (length spatial)
    by (unfold len; simpl; lia).
  rewrite computeShapeHelper_global_app. reflexivity.
Qed.








Lemma get_Some_range {A} (a : list A) (i : Z) (x : A) :
  get a i = Some x → 0 ≤ i < len a.
Proof.
  intros Hget. destruct (decide (0 ≤ i < len a)) as [|Hn]; [done|].
  assert (get a i = None) by (apply get_None_iff; lia). congruence.
Qed.





(** ** adjustPoolAttributes *)

Lemma adjustPoolAttributes_cover_spec (inputDims : list Q) :
  ∀ (n dim : nat) (kernelShape : list Q),
    (dim ≤ length kernelShape)%nat →
    (dim + 2 + n ≤ length inputDims)%nat →
    PoolConvUtil.adjustPoolAttributes_cover inputDims n (Z.of_nat dim) kernelShape =
    Some (take dim kernelShape ++ take n (drop (dim + 2) inputDims) ++
          drop (dim + n) kernelShape).
Proof.
  induction n as [|n IH]; intros dim kernelShape Hdim Hn.
  - simpl. rewrite Nat.add_0_r. by rewrite take_drop.
  - cbn [PoolConvUtil.adjustPoolAttributes_cover].
    destruct (lookup_lt_is_Some_2 inputDims (dim + 2)) as [v Hv]; [lia|].
    replace (Z.of_nat dim + 2) with (Z.of_nat (dim + 2)) by lia.
    rewrite get_of_nat, Hv. cbn [mbind option_bind].
    replace (Z.of_nat dim + 1) with (Z.of_nat (S dim)) by lia.
    rewrite (drop_S _ _ _ Hv). cbn [take].
    replace (S (dim + 2)) with (S dim + 2)%nat by lia.
    replace (dim + S n)%nat with (S dim + n)%nat by lia.
    destruct (Z.geb_spec (Z.of_nat dim) (len kernelShape)) as [Hge|Hlt].
    + assert (length kernelShape = dim) as Hlen by (unfold len in Hge; lia).
      rewrite IH by (rewrite ?length_app; simpl; lia).
      rewrite take_ge by (rewrite length_app; simpl; lia).
      rewrite (drop_ge (kernelShape ++ [v])) by (rewrite length_app; simpl; lia).
      rewrite (take_ge kernelShape) by lia.
      rewrite (drop_ge kernelShape) by lia.
      by rewrite <- app_assoc.
    + unfold len in Hlt.
      destruct (lookup_lt_is_Some_2 kernelShape dim) as [x Hx]; [lia|].
      rewrite (set_in_range kernelShape (Z.of_nat dim) x v)
        by (by rewrite get_of_nat).
      cbn [mbind option_bind]. rewrite Nat2Z.id.
      rewrite IH by (rewrite ?length_insert; lia).
      rewrite drop_insert_lt by lia.
      rewrite (take_S_r _ _ v)
        by (apply list_lookup_insert_eq; lia).
      rewrite take_insert_ge by lia.
      by rewrite <- app_assoc.
Qed.

Lemma adjustPoolAttributes_fill_post (msg : string) (value : Q) :
  (0 <= value)%Q →
  ∀ (n dim : nat) (arr arr' : list Q) (u : ()),
    (dim ≤ length arr)%nat →
    PoolConvUtil.adjustPoolAttributes_fill msg value n (Z.of_nat dim) arr = (Ret u, arr') →
    arr' = arr ++ replicate (dim + n - length arr) value ∧
    ∀ j, (dim ≤ j < dim + n)%nat → ∃ x, arr' !! j = Some x ∧ (0 <= x)%Q.
Proof.
  intros Hvalue.
  induction n as [|n IH]; intros dim arr arr' u Hdim Hrun.
  - simpl in Hrun. injection Hrun as <-. split; [|intros; lia].
    replace (dim + 0 - length arr)%nat with 0%nat by lia.
    simpl. by rewrite app_nil_r.
  - cbn [PoolConvUtil.adjustPoolAttributes_fill] in Hrun.
    replace (Z.of_nat dim + 1) with (Z.of_nat (S dim)) in Hrun by lia.
    destruct (Z.ltb_spec (Z.of_nat dim) (len arr)) as [Hlt|Hge].
    + unfold len in Hlt. rewrite get_of_nat in Hrun.
      destruct (arr !! dim) as [x|] eqn:Hx; [|done].
      destruct (Qle_bool 0 x) eqn:Hle; [|done]. simpl in Hrun.
      apply Qle_bool_iff in Hle.
      destruct (IH (S dim) arr arr' u ltac:(lia) Hrun) as [-> Hrest].
      split; [f_equal; f_equal; lia|].
      intros j Hj. destruct (decide (j = dim)) as [->|Hne].
      * exists x. split; [|done]. rewrite lookup_app_l by lia. done.
      * apply Hrest. lia.
    + unfold len in Hge. assert (length arr = dim) as Hlen by lia.
      destruct (IH (S dim) (arr ++ [value]) arr' u
                  ltac:(rewrite length_app; simpl; lia) Hrun) as [-> Hrest].
      split.
      * rewrite <- app_assoc, length_app. simpl.
        replace (dim + S n - length arr)%nat
          with (S (S dim + n - (length arr + 1)))%nat by lia.
        done.
      * intros j Hj. destruct (decide (j = dim)) as [->|Hne].
        -- exists value. split; [|done].
           rewrite <- app_assoc. rewrite lookup_app_r by lia.
           replace (dim - length arr)%nat with 0%nat by lia. done.
        -- apply Hrest. lia.
Qed.

Lemma adjustPoolAttributes_fill_empty (msg : string) (value : Q) :
  ∀ (n dim : nat) (arr : list Q),
    length arr = dim →
    PoolConvUtil.adjustPoolAttributes_fill msg value n (Z.of_nat dim) arr =
    (Ret (), arr ++ replicate n value).
Proof.
  induction n as [|n IH]; intros dim arr Hlen.
  - simpl. by rewrite app_nil_r.
  - cbn [PoolConvUtil.adjustPoolAttributes_fill].
    destruct (Z.ltb_spec (Z.of_nat dim) (len arr)) as [Hlt|_];
      [unfold len in Hlt; lia|].
    replace (Z.of_nat dim + 1) with (Z.of_nat (S dim)) by lia.
    rewrite IH by (rewrite length_app; simpl; lia).
    by rewrite <- app_assoc.
Qed.

Lemma adjustPoolAttributes_check_post (kernelShape pads : list Q) :
  ∀ (n dim : nat) (u : ()),
    PoolConvUtil.adjustPoolAttributes_check kernelShape pads n (Z.of_nat dim) = Ret u →
    ∀ j, (dim ≤ j < dim + n)%nat →
      ∃ k head tail,
        kernelShape !! j = Some k ∧ pads !! j = Some head ∧
        pads !! (j + length kernelShape)%nat = Some tail ∧
        (0 < k)%Q ∧ (head < k)%Q ∧ (tail < k)%Q.
Proof.
  induction n as [|n IH]; intros dim u Hrun j Hj; [lia|].
  cbn [PoolConvUtil.adjustPoolAttributes_check] in Hrun.
  replace (Z.of_nat dim + len kernelShape)
    with (Z.of_nat (dim + length kernelShape)) in Hrun by (unfold len; lia).
  rewrite !get_of_nat in Hrun.
  destruct (kernelShape !! dim) as [k|] eqn:Hk; [|done].
  destruct (Qle_bool k 0) eqn:Hk0; [done|].
  destruct (pads !! dim) as [head|] eqn:Hhead; [|done].
  destruct (pads !! (dim + length kernelShape)%nat) as [tail|] eqn:Htail; [|done].
  destruct (Qle_bool k head) eqn:Hkh; [done|].
  destruct (Qle_bool k tail) eqn:Hkt; [done|]. simpl in Hrun.
  replace (Z.of_nat dim + 1) with (Z.of_nat (S dim)) in Hrun by lia.
  destruct (decide (j = dim)) as [->|Hne].
  - exists k, head, tail. repeat split; try done;
      apply Qnot_le_lt; intros Hle; apply Qle_bool_iff in Hle; congruence.
  - apply (IH (S dim) u Hrun). lia.
Qed.

Lemma adjustPoolAttributes_check_ok (kernelShape pads : list Q) :
  (∀ j k, kernelShape !! j = Some k →
     ∃ head tail, pads !! j = Some head ∧
       pads !! (j + length kernelShape)%nat = Some tail ∧
       (0 < k)%Q ∧ (head < k)%Q ∧ (tail < k)%Q) →
  ∀ (n dim : nat),
    (dim + n ≤ length kernelShape)%nat →
    PoolConvUtil.adjustPoolAttributes_check kernelShape pads n (Z.of_nat dim) = Ret ().
Proof.
  intros Hok. induction n as [|n IH]; intros dim Hn; [done|].
  cbn [PoolConvUtil.adjustPoolAttributes_check].
  replace (Z.of_nat dim + len kernelShape)
    with (Z.of_nat (dim + length kernelShape)) by (unfold len; lia).
  rewrite !get_of_nat.
  destruct (lookup_lt_is_Some_2 kernelShape dim) as [k Hk]; [lia|].
  destruct (Hok dim k Hk) as (head & tail & -> & -> & H0 & Hh & Ht).
  rewrite Hk.
  assert (∀ x, (x < k)%Q → Qle_bool k x = false) as Hfalse.
  { intros x Hx. destruct (Qle_bool k x) eqn:E; [|done].
    apply Qle_bool_iff in E. by apply Qlt_not_le in Hx. }
  rewrite !Hfalse by done. simpl.
  replace (Z.of_nat dim + 1) with (Z.of_nat (S dim)) by lia.
  apply IH. lia.
Qed.

Lemma adjustPoolAttributes_cover_all (inputDims kernelShape : list Q) :
  PoolConvUtil.adjustPoolAttributes_cover inputDims
    (Z.to_nat (len inputDims - 2)) 0 kernelShape =
  Some (drop 2 inputDims ++ drop (length inputDims - 2) kernelShape).
Proof.
  destruct (decide (length inputDims < 2)%nat) as [Hshort|Hlong].
  - replace (Z.to_nat (len inputDims - 2)) with 0%nat by (unfold len; lia).
    replace (length inputDims - 2)%nat with 0%nat by lia.
    rewrite drop_ge by lia. done.
  - replace (Z.to_nat (len inputDims - 2)) with (length inputDims - 2)%nat
      by (unfold len; lia).
    rewrite (adjustPoolAttributes_cover_spec inputDims _ 0 kernelShape) by lia.
    rewrite take_0, take_ge by (rewrite length_drop; lia). done.
Qed.

(** X27: when [adjustPoolAttributes] returns, the kernel is the caller's
    (of rank two less than the input's) or, for a global operator, the
    input's spatial sizes followed by what the caller's kernel had beyond
    them; [strides] and [pads] are the caller's arrays extended with 1s and
    0s up to the kernel's rank and twice that; and on every axis the kernel
    is positive, the stride is not negative and both pads are at least 0 and
    below the kernel. *)
Theorem adjustPoolAttributes_post (isGlobalOperator : bool)
    (inputDims kernelShape strides pads kernelShape' strides' pads' : list Q) :
  PoolConvUtil.adjustPoolAttributes isGlobalOperator inputDims kernelShape strides pads =
  (Ret (), (kernelShape', strides', pads')) →
  kernelShape' =
    (if isGlobalOperator
     then drop 2 inputDims ++ drop (length inputDims - 2) kernelShape
     else kernelShape) ∧
  (isGlobalOperator = false → len kernelShape = len inputDims - 2) ∧
  strides' = strides ++ replicate (length kernelShape' - length strides) 1%Q ∧
  pads' = pads ++ replicate (2 * length kernelShape' - length pads) 0%Q ∧
  ∀ dim, 0 ≤ dim < len kernelShape' →
    ∃ k s head tail,
      get kernelShape' dim = Some k ∧ get strides' dim = Some s ∧
      get pads' dim = Some head ∧ get pads' (dim + len kernelShape') = Some tail ∧
      (0 < k ∧ 0 <= s ∧ 0 <= head ∧ head < k ∧ 0 <= tail ∧ tail < k)%Q.
Proof.
  unfold PoolConvUtil.adjustPoolAttributes. intros Hrun.
  destruct (negb isGlobalOperator && negb (len kernelShape =? len inputDims - 2))
    eqn:Hguard; [done|].
  assert (Hk : (if isGlobalOperator
                then PoolConvUtil.adjustPoolAttributes_cover inputDims
                       (Z.to_nat (len inputDims - 2)) 0 kernelShape
                else Some kernelShape) =
               Some (if isGlobalOperator
                     then drop 2 inputDims ++ drop (length inputDims - 2) kernelShape
                     else kernelShape)).
  { destruct isGlobalOperator; [apply adjustPoolAttributes_cover_all | done]. }
  rewrite Hk in Hrun. clear Hk.
  remember (if isGlobalOperator
            then drop 2 inputDims ++ drop (length inputDims - 2) kernelShape
            else kernelShape) as ks eqn:Hks.
  destruct (PoolConvUtil.adjustPoolAttributes_fill _ 1%Q _ 0 strides)
    as [[u1| |] ss] eqn:Hstrides; [|done|done].
  destruct (PoolConvUtil.adjustPoolAttributes_fill _ 0%Q _ 0 pads)
    as [[u2| |] ps] eqn:Hpads; [|done|done].
  injection Hrun as Hcheck <- <- <-.
  apply (adjustPoolAttributes_fill_post _ 1%Q ltac:(done) _ 0%nat) in Hstrides
    as [Hss Hsok]; [|lia].
  apply (adjustPoolAttributes_fill_post _ 0%Q ltac:(done) _ 0%nat) in Hpads
    as [Hps Hpok]; [|lia].
  pose proof (adjustPoolAttributes_check_post ks ps _ 0%nat _ Hcheck) as Hkok.
  split; [done|]. split.
  { intros ->. simpl in Hguard. destruct (Z.eqb_spec (len kernelShape) (len inputDims - 2));
      done. }
  split; [rewrite Hss; do 2 f_equal; unfold len; lia|].
  split; [rewrite Hps; do 2 f_equal; unfold len; lia|].
  intros dim Hdim. unfold len in Hdim.
  destruct (Hkok (Z.to_nat dim)) as (k & head & tail & Hk & Hhead & Htail & H0 & Hh & Ht);
    [unfold len; lia|].
  destruct (Hsok (Z.to_nat dim)) as (s & Hs & Hs0); [unfold len; lia|].
  destruct (Hpok (Z.to_nat dim)) as (head' & Hhead' & Hhead0); [unfold len; lia|].
  destruct (Hpok (Z.to_nat dim + length ks)%nat) as (tail' & Htail' & Htail0);
    [unfold len; lia|].
  assert (head' = head) as -> by congruence.
  assert (tail' = tail) as -> by congruence.
  exists k, s, head, tail.
  rewrite !get_to_nat by (unfold len; lia).
  replace (Z.to_nat (dim + len ks)) with (Z.to_nat dim + length ks)%nat
    by (unfold len; lia).
  done.
Qed.

Lemma adjustPoolAttributes_post_witness :
  [2; 1]%Q = [2]%Q ++ replicate (length [3; 3]%Q - length [2]%Q) 1%Q.
Proof.
  destruct (adjustPoolAttributes_post false [1; 3; 32; 32]%Q [3; 3]%Q [2]%Q [1; 1]%Q
              [3; 3]%Q [2; 1]%Q [1; 1; 0; 0]%Q eq_refl) as (_ & _ & Hstrides & _).
  exact Hstrides.
Defined.

(** X28: a global operator called with a kernel no longer than the input's
    spatial rank and with empty [strides] and [pads] returns when the
    input's spatial sizes are positive, and leaves the spatial sizes as the
    kernel, a stride of 1 on every axis and pads that are all 0. *)
Theorem adjustPoolAttributes_global_defaults (inputDims kernelShape : list Q) :
  (length kernelShape ≤ length inputDims - 2)%nat →
  Forall (λ d, 0 < d)%Q (drop 2 inputDims) →
  PoolConvUtil.adjustPoolAttributes true inputDims kernelShape [] [] =
  (Ret (),
   (drop 2 inputDims,
    replicate (length inputDims - 2) 1%Q,
    replicate (2 * (length inputDims - 2)) 0%Q)).
Proof.
  intros Hlen Hpos. unfold PoolConvUtil.adjustPoolAttributes.
  cbn [negb andb]. rewrite adjustPoolAttributes_cover_all.
  rewrite (drop_ge kernelShape) by lia. rewrite app_nil_r.
  assert (Hrank : length (drop 2 inputDims) = (length inputDims - 2)%nat)
    by apply length_drop.
  rewrite (adjustPoolAttributes_fill_empty _ 1%Q _ 0%nat []) by done.
  rewrite (adjustPoolAttributes_fill_empty _ 0%Q _ 0%nat []) by done.
  cbn [app].
  replace (Z.to_nat (len (drop 2 inputDims))) with (length inputDims - 2)%nat
    by (unfold len; lia).
  replace (Z.to_nat (len (drop 2 inputDims) * 2)) with (2 * (length inputDims - 2))%nat
    by (unfold len; lia).
  rewrite (adjustPoolAttributes_check_ok _ _) with (dim := 0%nat); [done| |lia].
  intros j k Hk. exists 0%Q, 0%Q.
  assert (j < length inputDims - 2)%nat
    by (rewrite <- Hrank; by apply lookup_lt_Some in Hk).
  rewrite !lookup_replicate_2 by lia.
  assert (0 < k)%Q by (by apply (Forall_lookup_1 _ _ _ _ Hpos Hk)).
  done.
Qed.

Lemma adjustPoolAttributes_global_defaults_witness :
  PoolConvUtil.adjustPoolAttributes true [1; 3; 32; 32]%Q [] [] [] =
  (Ret (), ([32; 32]%Q, [1; 1]%Q, [0; 0; 0; 0]%Q)).
Proof.
  apply (adjustPoolAttributes_global_defaults [1; 3; 32; 32]%Q []).
  - simpl. lia.
  - simpl. repeat (constructor; [reflexivity|]). constructor.
Defined.

(** * Further properties of checkInputsShape and TypeUtil *)

Lemma checkInputsShape_loop_spec (inputs : list input)
    (expectedDimensions : list Z) :
  length inputs = length expectedDimensions →
  ∀ (n i : nat),
    (i + n = length inputs)%nat →
    let run := checkInputsShape_loop inputs expectedDimensions n (Z.of_nat i) in
    (run = Ret true ∨ run = Ret false ∨ throws run) ∧
    (run = Ret true ↔
     Forall2 fits (drop i inputs) (drop i expectedDimensions)) ∧
    (throws run ↔
     ∃ k, drop i inputs !! k = Some Nullish ∧
          Forall2 fits (take k (drop i inputs)) (take k (drop i expectedDimensions))).
Proof.
  intros Hlen. induction n as [|n IH]; intros i Hi; cbv zeta.
  - simpl. rewrite !drop_ge by lia. split; [by left|]. split; [done|].
    split; [by intros [? [=]] | by intros (k & [=] & _)].
  - cbn [checkInputsShape_loop]. rewrite !get_of_nat.
    destruct (lookup_lt_is_Some_2 inputs i) as [entry Hentry]; [lia|].
    destruct (lookup_lt_is_Some_2 expectedDimensions i) as [rank Hrank]; [lia|].
    rewrite Hentry, Hrank, (drop_S _ _ _ Hentry), (drop_S _ _ _ Hrank).
    replace (Z.of_nat i + 1) with (Z.of_nat (S i)) by lia.
    destruct entry as [|[dims|]].
    + (* null or undefined: the TypeError *)
      split; [right; right; by eexists|]. split.
      * split; [done|]. intros Hall.
        by apply Forall2_cons_1 in Hall as [(dims & [=] & _) _].
      * split; [|intros _; by eexists].
        intros _. exists 0%nat. split; [done | constructor].
    + destruct (Z.eqb_spec (len dims) rank) as [Heq|Hne]; simpl.
      * destruct (IH (S i)) as (Hor & Htrue & Hthrow); [lia|]. cbv zeta in *.
        split; [done|]. split.
        -- rewrite Htrue. split.
           ++ intros Hrest. constructor; [by exists dims | done].
           ++ intros Hall. by apply Forall2_cons_1 in Hall as [_ Hrest].
        -- rewrite Hthrow. split.
           ++ intros (k & Hk & Hbefore). exists (S k). split; [done|].
              simpl. constructor; [by exists dims | done].
           ++ intros ([|k] & Hk & Hbefore); [done|].
              exists k. split; [done|]. simpl in Hbefore.
              by apply Forall2_cons_1 in Hbefore as [_ Hbefore].
      * split; [right; by left|]. split.
        -- split; [done|]. intros Hall.
           apply Forall2_cons_1 in Hall as [(dims' & [= <-] & Heq) _]. done.
        -- split; [by intros [? [=]]|].
           intros ([|k] & Hk & Hbefore); [done|]. simpl in Hbefore.
           apply Forall2_cons_1 in Hbefore as [(dims' & [= <-] & Heq) _]. done.
    + split; [right; by left|]. split.
      * split; [done|]. intros Hall.
        by apply Forall2_cons_1 in Hall as [(dims' & [=] & _) _].
      * split; [by intros [? [=]]|].
        intros ([|k] & Hk & Hbefore); [done|]. simpl in Hbefore.
        by apply Forall2_cons_1 in Hbefore as [(dims' & [=] & _) _].
Qed.

(** X29: [checkInputsShape] returns [true] exactly when the inputs are
    present, are as many as the expected ranks, and each has [dims] of the
    expected rank.  It throws (the [TypeError] of reading [.dims]) exactly
    when the inputs are as many as the expected ranks and an entry that is
    [null] or [undefined] comes before any entry that does not fit.  In
    every other case it returns [false]. *)
Theorem checkInputsShape_fit (inputs : option (list input))
    (expectedDimensions : list Z) :
  (checkInputsShape inputs expectedDimensions = Ret true ∨
   checkInputsShape inputs expectedDimensions = Ret false ∨
   throws (checkInputsShape inputs expectedDimensions)) ∧
  (checkInputsShape inputs expectedDimensions = Ret true ↔
   inputs_fit inputs expectedDimensions) ∧
  (throws (checkInputsShape inputs expectedDimensions) ↔
   nullish_reached inputs expectedDimensions).
Proof.
  unfold checkInputsShape, inputs_fit, nullish_reached.
  destruct inputs as [entries|].
  - destruct (Z.eqb_spec (len entries) (len expectedDimensions)) as [Heq|Hne]; simpl.
    + assert (length entries = length expectedDimensions) as Hlen
        by (unfold len in Heq; lia).
      destruct (checkInputsShape_loop_spec entries expectedDimensions Hlen
                  (length entries) 0 eq_refl) as (Hor & Htrue & Hthrow).
      cbv zeta in *. change (Z.of_nat 0) with 0 in *. rewrite !drop_0 in *.
      replace (Z.to_nat (len entries)) with (length entries) by (unfold len; lia).
      split; [done|]. split.
      * rewrite Htrue. split.
        -- intros Hall. by exists entries.
        -- by intros (? & [= <-] & Hall).
      * rewrite Hthrow. split.
        -- intros (k & Hk & Hbefore). by exists entries, k.
        -- intros (? & k & [= <-] & _ & Hk & Hbefore). by exists k.
    + split; [right; by left|]. split.
      * split; [done|]. intros (? & [= <-] & Hall).
        apply Forall2_length in Hall. unfold len in Hne. lia.
      * split; [by intros [? [=]]|].
        intros (? & k & [= <-] & Hlen & _). unfold len in Hne. lia.
  - split; [right; by left|]. split.
    + split; [done|]. by intros (? & [=] & _).
    + split; [by intros [? [=]]|]. by intros (? & ? & [=] & _).
Qed.

Section SameTypes.
Context {type : Type} `{EqDecision type}.

Lemma validateSameTypes_loop_spec (typesArray : list type) (baseType : type) :
  ∀ (n i : nat),
    (i + n = length typesArray)%nat →
    (TypeUtil.validateSameTypes_loop typesArray baseType n (Z.of_nat i) = Ret () ∨
     throws (TypeUtil.validateSameTypes_loop typesArray baseType n (Z.of_nat i))) ∧
    (TypeUtil.validateSameTypes_loop typesArray baseType n (Z.of_nat i) = Ret () ↔
     Forall (λ t, t = baseType) (drop i typesArray)).
Proof.
  induction n as [|n IH]; intros i Hi.
  - simpl. rewrite drop_ge by lia. split; [by left | done].
  - cbn [TypeUtil.validateSameTypes_loop]. rewrite get_of_nat.
    destruct (lookup_lt_is_Some_2 typesArray i) as [t Ht]; [lia|].
    rewrite Ht, (drop_S _ _ _ Ht).
    replace (Z.of_nat i + 1) with (Z.of_nat (S i)) by lia.
    destruct (decide (t = baseType)) as [->|Hne].
    + rewrite bool_decide_eq_true_2 by done. simpl.
      destruct (IH (S i)) as [Hor Hiff]; [lia|]. split; [done|].
      rewrite Hiff. split.
      * intros Hrest. by constructor.
      * intros Hall. by apply Forall_cons_1 in Hall as [_ Hrest].
    + rewrite bool_decide_eq_false_2 by done. simpl. split.
      * right. by eexists.
      * split; [done|]. intros Hall. by apply Forall_cons_1 in Hall as [? _].
Qed.

(** X30: [validateSameTypes] returns when the array has at least two types
    and all of them are the first one; on any other array it throws. *)
Theorem validateSameTypes_spec (typesArray : list type) :
  (TypeUtil.validateSameTypes typesArray = Ret () ∨
   throws (TypeUtil.validateSameTypes typesArray)) ∧
  (TypeUtil.validateSameTypes typesArray = Ret () ↔
   2 ≤ len typesArray ∧ Forall (λ t, Some t = head typesArray) typesArray).
Proof.
  unfold TypeUtil.validateSameTypes.
  destruct (Z.ltb_spec (len typesArray) 2) as [Hshort|Hlong].
  - split; [right; by eexists|]. split; [done | lia].
  - destruct typesArray as [|baseType rest]; [unfold len in Hlong; simpl in Hlong; lia|].
    change (get (baseType :: rest) 0) with (Some baseType).
    replace (Z.to_nat (len (baseType :: rest))) with (length (baseType :: rest))
      by (unfold len; lia).
    destruct (validateSameTypes_loop_spec (baseType :: rest) baseType
                (length (baseType :: rest)) 0 eq_refl) as [Hor Hiff].
    change (Z.of_nat 0) with 0 in *. split; [done|].
    rewrite Hiff, drop_0. cbn [head]. split.
    + intros Hall. split; [done|].
      eapply Forall_impl; [exact Hall|]. by intros t ->.
    + intros [_ Hall]. eapply Forall_impl; [exact Hall|]. by intros t [= ->].
Qed.

End SameTypes.
